(** * preprocess.py: tokenizer, document builder and filter pipeline

    A shallow embedding of [src/preprocess.py].  A Python [str] is a list of
    Unicode code points; the compiled regular expression [Token.PATTERN] is
    kept as a syntax tree and run by a backtracking matcher that follows the
    order in which Python's [re] explores alternatives and repetitions. *)

From Stdlib Require Import String Ascii List NArith Arith Bool Lia.
Import ListNotations.

Set Implicit Arguments.

(** ** Python strings *)

Definition char := N.
Definition str := list char.

(** The code points of an ASCII literal. *)
Fixpoint py (s : string) : str :=
  match s with
  | EmptyString => []
  | String a s' => N_of_ascii a :: py s'
  end.

Definition chr (a : ascii) : char := N_of_ascii a.

Definition LF : char := 10%N.
Definition CR : char := 13%N.
Definition DQUOTE : char := 34%N.

Fixpoint str_eqb (a b : str) : bool :=
  match a, b with
  | [], [] => true
  | x :: a', y :: b' => N.eqb x y && str_eqb a' b'
  | _, _ => false
  end.

(** [a.startswith(b)] and the substring test [b in a] on strings. *)
Fixpoint startswith (a b : str) : bool :=
  match b, a with
  | [], _ => true
  | y :: b', x :: a' => N.eqb x y && startswith a' b'
  | _ :: _, [] => false
  end.

Fixpoint str_contains (a b : str) : bool :=
  startswith a b ||
  match a with
  | [] => false
  | _ :: a' => str_contains a' b
  end.

(** [str.lower] and [str.upper] on the ASCII range.  The code calls them on
    the text of a token for which [isword] holds, which consists of ASCII
    letters and hyphens; the case tables of the other code points are not
    modelled and such code points are left as they are. *)
Definition lower_char (c : char) : char :=
  if (65 <=? c)%N && (c <=? 90)%N then (c + 32)%N else c.

Definition upper_char (c : char) : char :=
  if (97 <=? c)%N && (c <=? 122)%N then (c - 32)%N else c.

Definition str_lower (s : str) : str := map lower_char s.
Definition str_upper (s : str) : str := map upper_char s.

(** [sep.join(parts)]. *)
Fixpoint join (sep : str) (parts : list str) : str :=
  match parts with
  | [] => []
  | [p] => p
  | p :: ps => p ++ sep ++ join sep ps
  end.

(** ** Regular expressions *)

Module Re.

(** Members of a bracketed set; [Space] is the category escape [\s] of a
    [str] pattern, the Unicode white space of [str.isspace]. *)
Inductive item : Type :=
| Lit (c : char)
| Range (lo hi : char)
| Space.

Definition isspace (c : char) : bool :=
  (((9 <=? c) && (c <=? 13)) || ((28 <=? c) && (c <=? 32)) ||
   (c =? 133) || (c =? 160) || (c =? 5760) ||
   ((8192 <=? c) && (c <=? 8202)) || (c =? 8232) || (c =? 8233) ||
   (c =? 8239) || (c =? 8287) || (c =? 12288))%N.

Definition item_mem (c : char) (i : item) : bool :=
  match i with
  | Lit d => (c =? d)%N
  | Range lo hi => ((lo <=? c) && (c <=? hi))%N
  | Space => isspace c
  end.

Definition in_set (cs : list item) (c : char) : bool := existsb (item_mem c) cs.

Inductive regex : Type :=
| In (cs : list item)            (* [...] or a category escape: one character *)
| Cat (r1 r2 : regex)            (* r1 r2 *)
| Or (r1 r2 : regex)             (* r1|r2, left branch first *)
| Plus (r : regex)               (* r+   greedy *)
| StarLazy (r : regex)           (* r*?  lazy *)
| Group (i : nat) (r : regex).   (* the i-th capturing group; (?:r) is r *)

(** Captured groups, most recent binding first. *)
Definition groups := list (nat * str).

Fixpoint lookup (i : nat) (g : groups) : option str :=
  match g with
  | [] => None
  | (j, v) :: g' => if Nat.eqb i j then Some v else lookup i g'
  end.

(** The text consumed between input [s] and its suffix [s1]. *)
Definition consumed (s s1 : str) : str := firstn (length s - length s1) s.

Section Matcher.
Variable A : Type.

(** A continuation receives the rest of the input and the groups captured
    so far, and answers [None] to make the matcher backtrack. *)
Definition cont := str -> groups -> option A.

Definition orelse (x : option A) (y : option A) : option A :=
  match x with Some _ => x | None => y end.

(** Zero or more rounds of [step], as many as possible first.  A round
    that consumes nothing is cut off; [fuel] bounds the number of rounds
    by the length of the input. *)
Fixpoint greedy (fuel : nat) (step : str -> groups -> cont -> option A)
    (s : str) (g : groups) (k : cont) : option A :=
  match fuel with
  | O => k s g
  | S n =>
      orelse
        (step s g (fun s1 g1 =>
           if length s1 <? length s then greedy n step s1 g1 k else None))
        (k s g)
  end.

(** Zero or more rounds of [step], as few as possible first. *)
Fixpoint lazy (fuel : nat) (step : str -> groups -> cont -> option A)
    (s : str) (g : groups) (k : cont) : option A :=
  match fuel with
  | O => k s g
  | S n =>
      orelse
        (k s g)
        (step s g (fun s1 g1 =>
           if length s1 <? length s then lazy n step s1 g1 k else None))
  end.

Fixpoint exec (r : regex) (s : str) (g : groups) (k : cont) : option A :=
  match r with
  | In cs =>
      match s with
      | c :: s' => if in_set cs c then k s' g else None
      | [] => None
      end
  | Cat r1 r2 => exec r1 s g (fun s1 g1 => exec r2 s1 g1 k)
  | Or r1 r2 => orelse (exec r1 s g k) (exec r2 s g k)
  | Plus r1 => exec r1 s g (fun s1 g1 => greedy (length s1) (exec r1) s1 g1 k)
  | StarLazy r1 => lazy (length s) (exec r1) s g k
  | Group i r1 => exec r1 s g (fun s1 g1 => k s1 ((i, consumed s s1) :: g1))
  end.
End Matcher.

(** A match object: the groups that took part in the match. *)
Definition Match := groups.

(** [m.group(i)], [None] for a group that did not take part. *)
Definition group (m : Match) (i : nat) : option str := lookup i m.

(** [pattern.match(text)]: a match of a prefix of [text]. *)
Definition match_ (r : regex) (text : str) : option Match :=
  exec r text [] (fun _ g => Some g).

(** [pattern.fullmatch(text)]: a match that ends at the end of [text]. *)
Definition fullmatch (r : regex) (text : str) : option Match :=
  exec r text [] (fun s1 g => match s1 with [] => Some g | _ :: _ => None end).

End Re.

Import Re.

(** ** Token *)

Definition WORD_SET : list item :=
  [Range (chr "A") (chr "Z"); Range (chr "a") (chr "z"); Lit (chr "-")].

Definition PUNCT_SET : list item :=
  [Lit (chr "]"); Lit (chr "."); Lit (chr ","); Lit (chr ";"); Lit (chr ":");
   Lit (chr "?"); Lit (chr "!"); Lit (chr "("); Lit (chr ")"); Lit (chr "[");
   Lit (chr "{"); Lit (chr "}"); Lit (chr "_"); Lit (chr "@"); Lit (chr "#");
   Lit (chr "/"); Lit (chr "&"); Lit (chr "$"); Lit (chr "%"); Lit (chr "~");
   Lit (chr "`"); Lit (chr "'"); Lit DQUOTE; Lit (chr "*"); Lit (chr "=");
   Lit (chr "+"); Lit (chr "-")].

Definition DIGIT_SET : list item := [Range (chr "0") (chr "9")].
Definition SEP_SET : list item := [Lit (chr "."); Lit (chr ",")].
Definition SPACE_SET : list item := [Space].

(** [Token.PATTERN]: four capturing groups joined by [|].  Group 1 is
    [WORD_SET] repeated with [+]; group 2 is one character of [PUNCT_SET]
    (the set opens with a literal closing bracket, the backslash in it
    escapes the single quote, and its final hyphen is literal); group 3 is
    [DIGIT_SET] with [+] followed by the non-capturing group of one
    [SEP_SET] character and [DIGIT_SET] with [+], repeated with the lazy
    [*?]; group 4 is the white space escape with [+]. *)
Definition PATTERN : regex :=
  Or (Group 1 (Plus (In WORD_SET)))
 (Or (Group 2 (In PUNCT_SET))
 (Or (Group 3 (Cat (Plus (In DIGIT_SET))
                   (StarLazy (Cat (In SEP_SET) (Plus (In DIGIT_SET))))))
     (Group 4 (Plus (In SPACE_SET))))).


(** ** Exceptions *)

Inductive exn : Type :=
| ValueError (msg : str)
| AttributeError (msg : str).

Inductive result (A : Type) : Type :=
| OK (a : A)
| Raise (e : exn).

Arguments OK {A} a.
Arguments Raise {A} e.

Definition bind {A B : Type} (x : result A) (f : A -> result B) : result B :=
  match x with
  | OK a => f a
  | Raise e => Raise e
  end.

Notation "x <- c ;; k" := (bind c (fun x => k))
  (at level 61, c at next level, right associativity).

(** [list(map(func, xs))] and [list(filter(func, xs))] for a [func] that may
    raise: elements are visited left to right and the first exception ends
    the traversal. *)
Fixpoint mapM {A B : Type} (func : A -> result B) (xs : list A) : result (list B) :=
  match xs with
  | [] => OK []
  | x :: xs' => y <- func x ;; ys <- mapM func xs' ;; OK (y :: ys)
  end.

Fixpoint filterM {A : Type} (func : A -> result bool) (xs : list A) : result (list A) :=
  match xs with
  | [] => OK []
  | x :: xs' =>
      b <- func x ;; ys <- filterM func xs' ;; OK (if b then x :: ys else ys)
  end.

(** ** The Token classes *)

Inductive class : Type := CToken | CWord | CPunctuation | CNumber | CWhitespace.

Definition class_name (c : class) : str :=
  match c with
  | CToken => py "Token"
  | CWord => py "Word"
  | CPunctuation => py "Punctuation"
  | CNumber => py "Number"
  | CWhitespace => py "Whitespace"
  end.

(** An instance: the class it was created from and its [token] attribute. *)
Record Token : Type := mkToken { cls : class; token : str }.

(** The exception of a method looked up on a class that does not define it. *)
Definition no_attribute (c : class) (name : str) : exn :=
  AttributeError (py "'" ++ class_name c ++ py "' object has no attribute '"
                    ++ name ++ py "'").

Definition has_group (m : option Match) (i : nat) : bool :=
  match m with
  | Some m' => match group m' i with Some _ => true | None => false end
  | None => false
  end.

Definition Token_isword (self : Token) : bool :=
  has_group (fullmatch PATTERN (token self)) 1.

Definition Token_ispunct (self : Token) : bool :=
  has_group (fullmatch PATTERN (token self)) 2.

Definition Token_isnumber (self : Token) : bool :=
  has_group (fullmatch PATTERN (token self)) 3.

Definition Token_iswhitespace (self : Token) : bool :=
  has_group (fullmatch PATTERN (token self)) 4.

Definition Token_str (self : Token) : str := token self.
Definition Token_len (self : Token) : nat := length (token self).

(** [Token.__eq__] compares the texts only. *)
Definition Token_eq (self other : Token) : bool :=
  str_eqb (token self) (token other).

(** The validating constructors of the four subclasses. *)
Definition Word (word : str) : result Token :=
  let self := mkToken CWord word in
  if negb (Token_isword self)
  then Raise (ValueError (py "Invalid word: " ++ word))
  else OK self.

Definition Punctuation (punct : str) : result Token :=
  let self := mkToken CPunctuation punct in
  if negb (Token_ispunct self)
  then Raise (ValueError (py "Invalid punctuation: " ++ punct))
  else OK self.

Definition Number (number : str) : result Token :=
  let self := mkToken CNumber number in
  if negb (Token_isnumber self)
  then Raise (ValueError (py "Invalid number: " ++ number))
  else OK self.

Definition Whitespace (whitespace : str) : result Token :=
  let self := mkToken CWhitespace whitespace in
  if negb (Token_iswhitespace self)
  then Raise (ValueError (py "Invalid whitespace: " ++ whitespace))
  else OK self.

(** [Token.match]: [OK None] is the returned [None]. *)
Definition Token_match (text : str) : result (option Token) :=
  match text with
  | [] => OK None
  | _ :: _ =>
      match match_ PATTERN text with
      | None => Raise (ValueError (py "Invalid token: " ++ text))
      | Some m =>
          match group m 1 with
          | Some word => t <- Word word ;; OK (Some t)
          | None =>
          match group m 2 with
          | Some punct => t <- Punctuation punct ;; OK (Some t)
          | None =>
          match group m 3 with
          | Some number => t <- Number number ;; OK (Some t)
          | None =>
          match group m 4 with
          | Some whitespace => t <- Whitespace whitespace ;; OK (Some t)
          | None => OK None
          end end end end
      end
  end.

(** [transform], overridden in every subclass to rebuild through the
    subclass constructor. *)
Definition Token_transform (self : Token) (func : str -> str) : result Token :=
  match cls self with
  | CToken => OK (mkToken CToken (func (token self)))
  | CWord => Word (func (token self))
  | CPunctuation => Punctuation (func (token self))
  | CNumber => Number (func (token self))
  | CWhitespace => Whitespace (func (token self))
  end.

(** [lower] and [upper] exist on [Word] only, [isend] on [Punctuation] only. *)
Definition Token_lower (self : Token) : result Token :=
  match cls self with
  | CWord => Token_transform self str_lower
  | c => Raise (no_attribute c (py "lower"))
  end.

Definition Token_upper (self : Token) : result Token :=
  match cls self with
  | CWord => Token_transform self str_upper
  | c => Raise (no_attribute c (py "upper"))
  end.

Definition Token_isend (self : Token) : result bool :=
  match cls self with
  | CPunctuation => OK (str_contains (py ".?!") (token self))
  | c => Raise (no_attribute c (py "isend"))
  end.

(** ** Sentence, Paragraph, Document *)

Definition Sentence := list Token.
Definition Paragraph := list Sentence.
Definition Document := list Paragraph.

Definition Sentence_transform (self : Sentence) (func : Token -> result Token)
  : result Sentence := mapM func self.

Definition Sentence_lower (self : Sentence) : result Sentence :=
  Sentence_transform self
    (fun token => if Token_isword token then Token_lower token else OK token).

Definition Sentence_upper (self : Sentence) : result Sentence :=
  Sentence_transform self
    (fun token => if Token_isword token then Token_upper token else OK token).

Definition Sentence_filter (self : Sentence) (func : Token -> result bool)
  : result Sentence := filterM func self.

Definition Sentence_without_punct (self : Sentence) : result Sentence :=
  Sentence_filter self (fun token => OK (negb (Token_ispunct token))).

Definition Sentence_without_punct_exceptend (self : Sentence) : result Sentence :=
  Sentence_filter self
    (fun token =>
       if negb (Token_ispunct token) then OK true else Token_isend token).

Definition Sentence_without_whitespace (self : Sentence) : result Sentence :=
  Sentence_filter self (fun token => OK (negb (Token_iswhitespace token))).

Definition Sentence_without_number (self : Sentence) : result Sentence :=
  Sentence_filter self (fun token => OK (negb (Token_isnumber token))).

(** [tokens] is the list of literals of the command line. *)
Definition Sentence_without (self : Sentence) (tokens : list str) : result Sentence :=
  Sentence_filter self
    (fun token => OK (negb (existsb (str_eqb (Token_str token)) tokens))).

Definition Sentence_str (self : Sentence) : str := concat (map Token_str self).

Definition Paragraph_transform (self : Paragraph)
    (func : Sentence -> result Sentence) : result Paragraph := mapM func self.

Definition Paragraph_lower (self : Paragraph) : result Paragraph :=
  Paragraph_transform self Sentence_lower.

Definition Paragraph_upper (self : Paragraph) : result Paragraph :=
  Paragraph_transform self Sentence_upper.

Definition Paragraph_without_punct (self : Paragraph) : result Paragraph :=
  Paragraph_transform self Sentence_without_punct.

Definition Paragraph_without_punct_exceptend (self : Paragraph) : result Paragraph :=
  Paragraph_transform self Sentence_without_punct_exceptend.

Definition Paragraph_without_whitespace (self : Paragraph) : result Paragraph :=
  Paragraph_transform self Sentence_without_whitespace.

Definition Paragraph_without_number (self : Paragraph) : result Paragraph :=
  Paragraph_transform self Sentence_without_number.

Definition Paragraph_without (self : Paragraph) (tokens : list str) : result Paragraph :=
  Paragraph_transform self (fun sentence => Sentence_without sentence tokens).

Definition Paragraph_str (self : Paragraph) : str := concat (map Sentence_str self).

(** [str.splitlines()]: the line boundaries are LF, CR, CR LF, VT, FF, FS,
    GS, RS, NEL, LS and PS; the boundaries are not kept and no empty last
    line is produced. *)
Definition is_linebreak (c : char) : bool :=
  (((10 <=? c) && (c <=? 13)) || ((28 <=? c) && (c <=? 30)) ||
   (c =? 133) || (c =? 8232) || (c =? 8233))%N.

Definition push_char (c : char) (lines : list str) : list str :=
  match lines with
  | [] => [[c]]
  | l :: ls => (c :: l) :: ls
  end.

Fixpoint splitlines (s : str) : list str :=
  match s with
  | [] => []
  | c :: s' =>
      if (c =? CR)%N then
        match s' with
        | d :: s'' => if (d =? LF)%N then [] :: splitlines s'' else [] :: splitlines s'
        | [] => [[]]
        end
      else if is_linebreak c then [] :: splitlines s'
      else push_char c (splitlines s')
  end.

(** [readlines()] of a text stream positioned at its start, for a stream
    that hands its content over untranslated ([io.StringIO]): a line ends
    after each LF, which is kept. *)
Fixpoint readlines (content : str) : list str :=
  match content with
  | [] => []
  | c :: s' =>
      if (c =? LF)%N then [c] :: readlines s'
      else push_char c (readlines s')
  end.

(** The [while] loop of [Document._paragraph].  A token is true when its
    [__len__] is not zero.  [fuel] bounds the number of iterations; [None]
    means the bound was reached. *)
Fixpoint _paragraph_loop (fuel : nat) (line : str) (paragraph : Paragraph)
    (sentence : Sentence) : option (result Paragraph) :=
  match fuel with
  | O => None
  | S n =>
      match Token_match line with
      | Raise e => Some (Raise e)
      | OK None => Some (OK paragraph)
      | OK (Some token) =>
          if Nat.eqb (Token_len token) 0 then Some (OK paragraph)
          else
            match (if Token_ispunct token then Token_isend token else OK false) with
            | Raise e => Some (Raise e)
            | OK true =>
                _paragraph_loop n (skipn (Token_len token) line)
                  (paragraph ++ [sentence ++ [token]]) []
            | OK false =>
                _paragraph_loop n (skipn (Token_len token) line)
                  paragraph (sentence ++ [token])
            end
      end
  end.

(** [Document._paragraph]: one more iteration than [line] has characters is
    always enough, as is proved below, so the last branch is never taken. *)
Definition Document__paragraph (line : str) : result Paragraph :=
  match _paragraph_loop (S (length line)) line [] [] with
  | Some r => r
  | None => OK []
  end.

(** What a [Document] is built from. *)
Inductive source : Type :=
| FromParagraphs (document : list Paragraph)
| FromStr (document : str)
| FromStream (content : str).

Definition Document_init (document : source) : result Document :=
  match document with
  | FromStr text => mapM Document__paragraph (splitlines text)
  | FromStream content => mapM Document__paragraph (readlines content)
  | FromParagraphs ps => OK ps
  end.

Definition Document_transform (self : Document)
    (func : Paragraph -> result Paragraph) : result Document := mapM func self.

Definition Document_lower (self : Document) : result Document :=
  Document_transform self Paragraph_lower.

Definition Document_upper (self : Document) : result Document :=
  Document_transform self Paragraph_upper.

Definition Document_without_punct (self : Document) : result Document :=
  Document_transform self Paragraph_without_punct.

Definition Document_without_punct_exceptend (self : Document) : result Document :=
  Document_transform self Paragraph_without_punct_exceptend.

Definition Document_without_whitespace (self : Document) : result Document :=
  Document_transform self Paragraph_without_whitespace.

Definition Document_without_number (self : Document) : result Document :=
  Document_transform self Paragraph_without_number.

Definition Document_without (self : Document) (tokens : list str) : result Document :=
  Document_transform self (fun paragraph => Paragraph_without paragraph tokens).

Definition Document_str (self : Document) : str :=
  join [LF; LF] (map Paragraph_str self).

(** ** The command line *)

(** The parsed arguments of the script: the five flags, and the literals of
    the option for literal tokens, [None] when the option is absent. *)
Module Args.
Record t : Type := make {
  lower : bool;
  upper : bool;
  without_punct : bool;
  without_whitespace : bool;
  without_number : bool;
  without : option (list str)
}.
End Args.

(** The body of the script.  [source] is the text that the source stream
    delivers; the value returned is what [print] writes to the destination,
    the rendering of the Document and a line feed.  A list of literals is
    true when it is not empty. *)
Definition main (args : Args.t) (source : str) : result str :=
  doc <- Document_init (FromStream source) ;;
  doc <- (if Args.lower args then Document_lower doc
          else if Args.upper args then Document_upper doc
          else OK doc) ;;
  doc <- (if Args.without_punct args
          then Document_without_punct doc else OK doc) ;;
  doc <- (if Args.without_whitespace args
          then Document_without_whitespace doc else OK doc) ;;
  doc <- (if Args.without_number args
          then Document_without_number doc else OK doc) ;;
  doc <- (match Args.without args with
          | Some ((_ :: _) as tokens) => Document_without doc tokens
          | _ => OK doc
          end) ;;
  OK (Document_str doc ++ [LF]).

(** [Document.readall]: the strings that the generator yields, in order. *)
Definition Document_readall (self : Document) : list str :=
  flat_map
    (fun paragraph =>
       flat_map (fun sentence => map Token_str sentence) paragraph)
    self.

(** * individual.py *)

From Stdlib Require Import ZArith.

(** Slices of a list with an integer bound, [seq[:n]] and [seq[n:]]: a
    negative bound counts from the end, and a bound outside the list is
    clamped. *)
Definition slice_index {A : Type} (seq : list A) (n : Z) : nat :=
  if (n <? 0)%Z then Z.to_nat (Z.of_nat (length seq) + n) else Z.to_nat n.

Definition slice_to {A : Type} (seq : list A) (n : Z) : list A :=
  firstn (slice_index seq n) seq.

Definition slice_from {A : Type} (seq : list A) (n : Z) : list A :=
  skipn (slice_index seq n) seq.

Record Individual : Type := mkIndividual { chromosome : list bool }.

(** [Individual.__init__].  [choices i] is the value that the [i]-th call
    of [random.choice] returns. *)
Definition Individual_init (chromosome : option (list bool))
    (chromosome_length : option Z) (choices : nat -> bool) : Individual :=
  match chromosome, chromosome_length with
  | Some c, Some n => mkIndividual (slice_to c n)
  | Some c, None => mkIndividual c
  | None, Some n => mkIndividual (map choices (seq 0 (Z.to_nat n)))
  | None, None => mkIndividual []
  end.

Definition Individual_mutate (self : Individual) : Individual :=
  Individual_init (Some (map negb (chromosome self))) None (fun _ => false).

(** [random.randint(a, b)]: [draw] is the number drawn, between [a] and
    [b]; an empty range raises [ValueError], whose message, which depends
    on the version of the library, is [message]. *)
Definition randint (message : str) (a b draw : Z) : result Z :=
  if (b <? a)%Z then Raise (ValueError message) else OK draw.

Definition Individual_crossover (message : str) (self other : Individual)
    (draw : Z) : result (Individual * Individual) :=
  crossover_point <-
    randint message 1 (Z.of_nat (length (chromosome self)) - 1) draw ;;
  let first_childern :=
    slice_to (chromosome self) crossover_point ++
    slice_from (chromosome other) crossover_point in
  let second_childern :=
    slice_to (chromosome other) crossover_point ++
    slice_from (chromosome self) crossover_point in
  OK (Individual_init (Some first_childern) None (fun _ => false),
      Individual_init (Some second_childern) None (fun _ => false)).

(** [Individual.__item__]: [None] is the [IndexError] of an index outside
    the chromosome; a negative index counts from the end. *)
Definition Individual_item (self : Individual) (index : Z) : option bool :=
  let n := Z.of_nat (length (chromosome self)) in
  if ((index <? - n) || (n <=? index))%Z then None
  else nth_error (chromosome self)
         (Z.to_nat (if (index <? 0)%Z then n + index else index)).

Unset Implicit Arguments.

(** * Vocabulary of the properties *)

(** The longest prefix of [s] whose characters all pass [p], and what
    follows it. *)
Fixpoint take_while (p : char -> bool) (s : str) : str :=
  match s with
  | c :: s' => if p c then c :: take_while p s' else []
  | [] => []
  end.

Fixpoint drop_while (p : char -> bool) (s : str) : str :=
  match s with
  | c :: s' => if p c then drop_while p s' else s
  | [] => []
  end.

(** Membership in the four sets of the pattern. *)
Definition isW := in_set WORD_SET.
Definition isP := in_set PUNCT_SET.
Definition isD := in_set DIGIT_SET.
Definition isS := in_set SPACE_SET.

(** The characters that end a sentence. *)
Definition is_end_char (c : char) : bool := str_contains (py ".?!") [c].

(** The classifier read off the pattern: the token of a non-empty text is
    decided by its first character. *)
Definition lex (c : char) (s : str) : option (Token * str) :=
  if isW c then Some (mkToken CWord (c :: take_while isW s), drop_while isW s)
  else if isP c then Some (mkToken CPunctuation [c], s)
  else if isD c then Some (mkToken CNumber (c :: take_while isD s), drop_while isD s)
  else if isS c then Some (mkToken CWhitespace (c :: take_while isS s), drop_while isS s)
  else None.

(** The condition of the [if] in [Document._paragraph]. *)
Definition end_test (token : Token) : result bool :=
  if Token_ispunct token then Token_isend token else OK false.

(** Any character but the three that end a sentence. *)
Definition not_end (c : char) : bool := negb (is_end_char c).

(** The loop with the fuel that [Document._paragraph] gives it. *)
Definition run (line : str) (paragraph : Paragraph) (sentence : Sentence)
  : result Paragraph :=
  match _paragraph_loop (S (length line)) line paragraph sentence with
  | Some r => r
  | None => OK []
  end.

(** The error of the specification: a [ValueError] whose message carries
    the text that no pattern matches. *)
Definition InvalidToken (text : str) : exn :=
  ValueError (py "Invalid token: " ++ text).

(** A sentence is complete when its last token is a [Punctuation] of one
    of the three end characters, which passes the end test of the loop, and
    no token before it passes that test. *)
Definition complete (sentence : Sentence) : Prop :=
  exists init c,
    sentence = init ++ [mkToken CPunctuation [c]] /\
    str_contains (py ".?!") [c] = true /\
    end_test (mkToken CPunctuation [c]) = OK true /\
    Forall (fun token => end_test token = OK false) init.

(** The part of a line that the specification keeps: the line up to its
    last end character, nothing when it has none. *)
Fixpoint upto_last_end (line : str) : str :=
  match line with
  | [] => []
  | c :: s =>
      match upto_last_end s with
      | [] => if str_contains (py ".?!") [c] then [c] else []
      | kept => c :: kept
      end
  end.

(** A result without the exception it may carry. *)
Definition erase {A : Type} (r : result A) : option A :=
  match r with
  | OK a => Some a
  | Raise _ => None
  end.

(** The punctuation set as the specification lists it. *)
Definition punctuation_set : str :=
  py "].,;:?!()[{}_@#/&$%~`'" ++ [DQUOTE] ++ py "*=+-".

(** [subseq l' l]: [l'] is [l] with some elements left out, the others in
    their order. *)
Inductive subseq {A : Type} : list A -> list A -> Prop :=
| subseq_nil : subseq [] []
| subseq_keep x l' l : subseq l' l -> subseq (x :: l') (x :: l)
| subseq_drop x l' l : subseq l' l -> subseq l' (x :: l).

(** What a filter leaves of a Document: as many paragraphs, as many
    sentences in each paragraph, at the same places, and in each sentence
    some of its tokens in their order. *)
Definition preserved (d d' : Document) : Prop :=
  length d' = length d /\
  Forall2
    (fun p p' : Paragraph =>
       length p' = length p /\
       Forall2 (fun s s' : Sentence => subseq s' s) p p')
    d d'.

(** The function that [Sentence.lower] maps over its tokens. *)
Definition lower_token (token : Token) : result Token :=
  if Token_isword token then Token_lower token else OK token.

(** A token that the classifier returned for some text. *)
Definition lexed (t : Token) : Prop :=
  exists c s rest, lex c s = Some (t, rest).

(** Membership in the separator set of the number pattern. *)
Definition isSep := in_set SEP_SET.

(** The texts that the number pattern matches in full, as an automaton:
    one or more digits, then any number of groups of one separator and one
    or more digits.  [NeedDigit] is the state at the start and after a
    separator, [InDigits] the accepting state inside a run of digits. *)
Inductive number_state : Type := NeedDigit | InDigits.

Fixpoint number_form (st : number_state) (s : str) : bool :=
  match s with
  | [] => match st with InDigits => true | NeedDigit => false end
  | c :: s' =>
      match st with
      | NeedDigit => isD c && number_form InDigits s'
      | InDigits =>
          (isD c && number_form InDigits s') ||
          (isSep c && number_form NeedDigit s')
      end
  end.

(** What may follow a run of digits in such a text. *)
Definition number_tail (s : str) : bool :=
  match s with
  | [] => true
  | c :: s' => isSep c && number_form NeedDigit s'
  end.

(** A non-empty text whose characters all pass [p]. *)
Definition nonempty_all (p : char -> bool) (s : str) : bool :=
  match s with
  | [] => false
  | _ :: _ => forallb p s
  end.

(** How many of the four kind predicates a token passes. *)
Definition kinds_passed (t : Token) : nat :=
  length (filter (fun b : bool => b)
            [Token_isword t; Token_ispunct t; Token_isnumber t;
             Token_iswhitespace t]).

(** The function that [Sentence.upper] maps over its tokens. *)
Definition upper_token (token : Token) : result Token :=
  if Token_isword token then Token_upper token else OK token.

(** What case folding with [f] makes of a token: a token that passes
    [isword] is of class [Word] and becomes the [Word] of the folded text,
    which passes [isword] too; any other token is left as it is. *)
Definition folded (f : str -> str) (t t' : Token) : Prop :=
  if Token_isword t
  then cls t = CWord /\ t' = mkToken CWord (f (token t)) /\
       Token_isword t' = true
  else t' = t.

(** The tests of the four filters that do not raise. *)
Definition keep_not_punct (t : Token) : bool := negb (Token_ispunct t).
Definition keep_not_whitespace (t : Token) : bool := negb (Token_iswhitespace t).
Definition keep_not_number (t : Token) : bool := negb (Token_isnumber t).
Definition keep_not_among (tokens : list str) (t : Token) : bool :=
  negb (existsb (str_eqb (Token_str t)) tokens).

(** Two results that are both exceptions, the same one, or both values,
    related by [R]. *)
Definition rel_result {A : Type} (R : A -> A -> Prop) (a b : result A) : Prop :=
  match a, b with
  | OK u, OK v => R u v
  | Raise e, Raise e' => e = e'
  | _, _ => False
  end.

(** A filter of the command line, applied when its flag is set. *)
Definition opt_filter (flag : bool) (g : Token -> bool) (d : Document)
  : Document :=
  if flag then map (map (filter g)) d else d.

(** The literals of the command line that are in effect: none when the
    option is absent. *)
Definition literals (without : option (list str)) : list str :=
  match without with
  | Some tokens => tokens
  | None => []
  end.

(** The characters of the output when only words are left. *)
Definition word_or_LF (c : char) : bool := in_set WORD_SET c || (c =? LF)%N.

(** The output of the script when case folding gave [doc]. *)
Definition output (args : Args.t) (doc : Document) : str :=
  Document_str
    (opt_filter true (keep_not_among (literals (Args.without args)))
       (opt_filter (Args.without_number args) keep_not_number
          (opt_filter (Args.without_whitespace args) keep_not_whitespace
             (opt_filter (Args.without_punct args) keep_not_punct doc))))
  ++ [LF].

(** * Properties *)

(** ** The scenarios of the specification *)

Example scenario_hello_world :
  Document_init (FromStr (py "Hello, world! Bye.")) =
  OK [[[mkToken CWord (py "Hello"); mkToken CPunctuation (py ",");
        mkToken CWhitespace (py " "); mkToken CWord (py "world");
        mkToken CPunctuation (py "!")];
       [mkToken CWhitespace (py " "); mkToken CWord (py "Bye");
        mkToken CPunctuation (py ".")]]].
Proof. vm_compute. reflexivity. Qed.

Example scenario_hello_world_without_punct :
  (d <- Document_init (FromStr (py "Hello, world! Bye.")) ;;
   Document_without_punct d) =
  OK [[[mkToken CWord (py "Hello"); mkToken CWhitespace (py " ");
        mkToken CWord (py "world")];
       [mkToken CWhitespace (py " "); mkToken CWord (py "Bye")]]].
Proof. vm_compute. reflexivity. Qed.

Example scenario_no_ending :
  Document_init (FromStr (py "no ending here")) = OK [[]].
Proof. vm_compute. reflexivity. Qed.

Example scenario_without_the :
  Sentence_without
    [mkToken CWord (py "The"); mkToken CWhitespace (py " ");
     mkToken CWord (py "the"); mkToken CPunctuation (py ".")]
    [py "the"] =
  OK [mkToken CWord (py "The"); mkToken CWhitespace (py " ");
      mkToken CPunctuation (py ".")].
Proof. vm_compute. reflexivity. Qed.

Example scenario_invalid_token :
  Document_init (FromStr (py "a < b.")) =
  Raise (ValueError (py "Invalid token: < b.")).
Proof. vm_compute. reflexivity. Qed.

Example scenario_lower :
  (d <- Document_init (FromStr (py "Hello, World! Bye.")) ;;
   d' <- Document_lower d ;; OK (Document_str d')) =
  OK (py "hello, world! bye.").
Proof. vm_compute. reflexivity. Qed.

(** ** Runs of characters *)

Lemma take_drop_while p s : take_while p s ++ drop_while p s = s.
Proof.
  induction s as [|c s IH]; simpl; [reflexivity|].
  destruct (p c); simpl; [now rewrite IH | reflexivity].
Qed.

Lemma forallb_take_while p s : forallb p (take_while p s) = true.
Proof.
  induction s as [|c s IH]; simpl; [reflexivity|].
  destruct (p c) eqn:E; simpl; [now rewrite E | reflexivity].
Qed.

Lemma drop_while_forallb p s : forallb p s = true -> drop_while p s = [].
Proof.
  induction s as [|c s IH]; simpl; [reflexivity|].
  destruct (p c); simpl; [exact IH | discriminate].
Qed.

Lemma take_while_forallb p s : forallb p s = true -> take_while p s = s.
Proof.
  intros H. pose proof (take_drop_while p s) as E.
  rewrite (drop_while_forallb _ _ H), app_nil_r in E. exact E.
Qed.

Lemma length_drop_while p s : length (drop_while p s) <= length s.
Proof.
  induction s as [|c s IH]; simpl; [lia|].
  destruct (p c); simpl; lia.
Qed.

Lemma skipn_take_while p s :
  skipn (length (take_while p s)) s = drop_while p s.
Proof.
  induction s as [|c s IH]; simpl; [reflexivity|].
  destruct (p c); simpl; [exact IH | reflexivity].
Qed.

(** Appending one character to a run that has already stopped, or a
    character that does not belong to the run, leaves the run as it is. *)
Lemma take_while_snoc p s x :
  p x = false \/ drop_while p s <> [] ->
  take_while p (s ++ [x]) = take_while p s /\
  drop_while p (s ++ [x]) = drop_while p s ++ [x].
Proof.
  induction s as [|c s IH]; simpl; intros H.
  - destruct H as [H|H]; [rewrite H; auto | congruence].
  - destruct (p c) eqn:E.
    + destruct (IH H) as [-> ->]. auto.
    + auto.
Qed.

Lemma take_while_snoc_all p s x :
  forallb p s = true -> p x = true ->
  take_while p (s ++ [x]) = s ++ [x] /\ drop_while p (s ++ [x]) = [].
Proof.
  intros Hs Hx.
  assert (H : forallb p (s ++ [x]) = true).
  { rewrite forallb_app, Hs. simpl. now rewrite Hx. }
  split; [now apply take_while_forallb | now apply drop_while_forallb].
Qed.

Lemma consumed_app (a b : str) : consumed (a ++ b) b = a.
Proof.
  unfold consumed. rewrite length_app.
  replace (length a + length b - length b) with (length a + 0) by lia.
  rewrite firstn_app_2. simpl. apply app_nil_r.
Qed.

Lemma consumed_run p c s :
  consumed (c :: s) (drop_while p s) = c :: take_while p s.
Proof.
  rewrite <- (take_drop_while p s) at 1.
  change (c :: take_while p s ++ drop_while p s)
    with ((c :: take_while p s) ++ drop_while p s).
  apply consumed_app.
Qed.

(** ** The matcher on runs of one set *)

Section Runs.
Variable A : Type.
Variable cs : list item.

(** A greedy repetition of one set hands the continuation the end of the
    longest run first. *)
Lemma greedy_In_longest fuel (s : str) g (k : cont A) x :
  length s <= fuel ->
  k (drop_while (in_set cs) s) g = Some x ->
  greedy fuel (exec (A:=A) (In cs)) s g k = Some x.
Proof.
  revert s. induction fuel as [|n IH]; intros s Hlen Hk.
  - destruct s; [exact Hk | simpl in Hlen; lia].
  - destruct s as [|c s]; simpl.
    + exact Hk.
    + simpl in Hk. destruct (in_set cs c) eqn:E.
      * assert (L : (length s <? S (length s)) = true)
          by (apply Nat.ltb_lt; lia).
        rewrite L, IH; [reflexivity | simpl in Hlen; lia | exact Hk].
      * simpl. exact Hk.
Qed.

Lemma exec_Plus_In c (s : str) g (k : cont A) x :
  in_set cs c = true ->
  k (drop_while (in_set cs) s) g = Some x ->
  exec (Plus (In cs)) (c :: s) g k = Some x.
Proof.
  intros Hc Hk. simpl. rewrite Hc.
  apply greedy_In_longest; [lia | exact Hk].
Qed.

Lemma exec_Plus_In_fail c (s : str) g (k : cont A) :
  in_set cs c = false -> exec (Plus (In cs)) (c :: s) g k = None.
Proof. intros Hc. simpl. now rewrite Hc. Qed.

(** A lazy repetition tries the continuation before any round. *)
Lemma lazy_first fuel step (s : str) g (k : cont A) x :
  k s g = Some x -> lazy fuel step s g k = Some x.
Proof. intros Hk. destruct fuel; simpl; now rewrite ?Hk. Qed.
End Runs.

(** ** The four sets *)

Ltac bool_prop :=
  rewrite ?orb_false_r in *;
  repeat first [ rewrite orb_true_iff in * | rewrite andb_true_iff in *
               | rewrite N.leb_le in * | rewrite N.eqb_eq in * ].

Lemma isW_eq c :
  isW c = (((65 <=? c) && (c <=? 90)) || (((97 <=? c) && (c <=? 122)) ||
           ((c =? 45) || false)))%N.
Proof. reflexivity. Qed.

Lemma isD_eq c : isD c = (((48 <=? c) && (c <=? 57)) || false)%N.
Proof. reflexivity. Qed.

Lemma isS_eq c : isS c = (isspace c || false).
Proof. reflexivity. Qed.

Lemma isP_eq c : isP c = existsb (N.eqb c) (py "].,;:?!()[{}_@#/&$%~`'" ++ [34%N] ++ py "*=+-").
Proof. reflexivity. Qed.

Lemma is_end_char_eq c :
  is_end_char c = ((c =? 46) || ((c =? 63) || (c =? 33)))%N.
Proof.
  unfold is_end_char. change (py ".?!") with [46%N; 63%N; 33%N].
  cbn [str_contains startswith].
  rewrite (N.eqb_sym 46 c), (N.eqb_sym 63 c), (N.eqb_sym 33 c).
  rewrite !andb_true_r, !orb_false_r. reflexivity.
Qed.

Ltac set_false :=
  apply not_true_is_false; intro;
  rewrite ?isW_eq, ?isD_eq, ?isS_eq, ?isP_eq, ?is_end_char_eq in *;
  unfold isspace in *; simpl existsb in *;
  bool_prop; lia.

Lemma digit_not_word c : isD c = true -> isW c = false.
Proof. intros. set_false. Qed.

Lemma digit_not_punct c : isD c = true -> isP c = false.
Proof. intros. set_false. Qed.

Lemma space_not_word c : isS c = true -> isW c = false.
Proof. intros. set_false. Qed.

Lemma space_not_punct c : isS c = true -> isP c = false.
Proof. intros. set_false. Qed.

Lemma space_not_digit c : isS c = true -> isD c = false.
Proof. intros. set_false. Qed.

Lemma end_not_word c : is_end_char c = true -> isW c = false.
Proof. intros. set_false. Qed.

Lemma end_not_digit c : is_end_char c = true -> isD c = false.
Proof. intros. set_false. Qed.

Lemma end_not_space c : is_end_char c = true -> isS c = false.
Proof. intros. set_false. Qed.

(** ** The pattern, arm by arm *)

Section Arms.
Variable A : Type.

Lemma exec_Or r1 r2 (s : str) g (k : cont A) :
  exec (Or r1 r2) s g k = orelse (exec r1 s g k) (exec r2 s g k).
Proof. reflexivity. Qed.

Lemma exec_Group i r (s : str) g (k : cont A) :
  exec (Group i r) s g k =
  exec r s g (fun s1 g1 => k s1 ((i, consumed s s1) :: g1)).
Proof. reflexivity. Qed.

Lemma exec_Cat r1 r2 (s : str) g (k : cont A) :
  exec (Cat r1 r2) s g k = exec r1 s g (fun s1 g1 => exec r2 s1 g1 k).
Proof. reflexivity. Qed.

Lemma exec_StarLazy r (s : str) g (k : cont A) :
  exec (StarLazy r) s g k = lazy (length s) (exec r) s g k.
Proof. reflexivity. Qed.

Lemma exec_In_cons cs c (s : str) g (k : cont A) :
  exec (In cs) (c :: s) g k = if in_set cs c then k s g else None.
Proof. reflexivity. Qed.

(** A group that holds one greedy run. *)
Lemma arm_run i cs c (s : str) g (k : cont A) x :
  in_set cs c = true ->
  k (drop_while (in_set cs) s) ((i, c :: take_while (in_set cs) s) :: g) = Some x ->
  exec (Group i (Plus (In cs))) (c :: s) g k = Some x.
Proof.
  intros Hc Hk. rewrite exec_Group.
  apply exec_Plus_In; [exact Hc|]. now rewrite consumed_run.
Qed.

Lemma arm_run_fail i cs c (s : str) g (k : cont A) :
  in_set cs c = false ->
  exec (Group i (Plus (In cs))) (c :: s) g k = None.
Proof. intros Hc. rewrite exec_Group. now apply exec_Plus_In_fail. Qed.

(** The number arm: the digits, then the lazy repetition, which stops at
    once when the continuation accepts. *)
Lemma arm_number i c (s : str) g r (k : cont A) x :
  isD c = true ->
  k (drop_while isD s) ((i, c :: take_while isD s) :: g) = Some x ->
  exec (Group i (Cat (Plus (In DIGIT_SET)) (StarLazy r))) (c :: s) g k = Some x.
Proof.
  intros Hc Hk. rewrite exec_Group, exec_Cat.
  apply exec_Plus_In; [exact Hc|].
  rewrite exec_StarLazy. apply lazy_first.
  fold isD. now rewrite consumed_run.
Qed.

Lemma arm_number_fail i c (s : str) g r (k : cont A) :
  isD c = false ->
  exec (Group i (Cat (Plus (In DIGIT_SET)) r)) (c :: s) g k = None.
Proof.
  intros Hc. rewrite exec_Group, exec_Cat. now apply exec_Plus_In_fail.
Qed.

Lemma arm_punct i c (s : str) g (k : cont A) :
  exec (Group i (In PUNCT_SET)) (c :: s) g k =
  if isP c then k s ((i, [c]) :: g) else None.
Proof.
  rewrite exec_Group, exec_In_cons. fold (isP c).
  destruct (isP c); [|reflexivity].
  change (c :: s) with ([c] ++ s). now rewrite consumed_app.
Qed.
End Arms.

Ltac pattern_arms :=
  unfold match_, fullmatch, PATTERN; rewrite !exec_Or.

(** [match] on a non-empty text, by the first character. *)
Lemma match_word c s :
  isW c = true ->
  match_ PATTERN (c :: s) = Some [(1, c :: take_while isW s)].
Proof.
  intros Hc. pattern_arms.
  erewrite arm_run; [reflexivity | exact Hc | reflexivity].
Qed.

Lemma match_punct c s :
  isW c = false -> isP c = true ->
  match_ PATTERN (c :: s) = Some [(2, [c])].
Proof.
  intros Hw Hp. pattern_arms.
  rewrite arm_run_fail by exact Hw. rewrite arm_punct, Hp. reflexivity.
Qed.

Lemma match_number c s :
  isW c = false -> isP c = false -> isD c = true ->
  match_ PATTERN (c :: s) = Some [(3, c :: take_while isD s)].
Proof.
  intros Hw Hp Hd. pattern_arms.
  rewrite arm_run_fail by exact Hw. rewrite arm_punct, Hp.
  erewrite arm_number; [reflexivity | exact Hd | reflexivity].
Qed.

Lemma match_space c s :
  isW c = false -> isP c = false -> isD c = false -> isS c = true ->
  match_ PATTERN (c :: s) = Some [(4, c :: take_while isS s)].
Proof.
  intros Hw Hp Hd Hs. pattern_arms.
  rewrite arm_run_fail by exact Hw. rewrite arm_punct, Hp.
  rewrite arm_number_fail by exact Hd.
  erewrite arm_run; [reflexivity | exact Hs | reflexivity].
Qed.

Lemma match_none c s :
  isW c = false -> isP c = false -> isD c = false -> isS c = false ->
  match_ PATTERN (c :: s) = None.
Proof.
  intros Hw Hp Hd Hs. pattern_arms.
  rewrite arm_run_fail by exact Hw. rewrite arm_punct, Hp.
  rewrite arm_number_fail by exact Hd.
  rewrite arm_run_fail by exact Hs. reflexivity.
Qed.

(** [fullmatch] on the texts that [match] captures. *)
Lemma fullmatch_word c s :
  isW c = true -> forallb isW s = true ->
  fullmatch PATTERN (c :: s) = Some [(1, c :: s)].
Proof.
  intros Hc Hs. pattern_arms.
  erewrite arm_run; [reflexivity | exact Hc |].
  fold isW. rewrite (drop_while_forallb _ _ Hs), (take_while_forallb _ _ Hs).
  reflexivity.
Qed.

Lemma fullmatch_punct c :
  isW c = false -> isP c = true ->
  fullmatch PATTERN [c] = Some [(2, [c])].
Proof.
  intros Hw Hp. pattern_arms.
  rewrite arm_run_fail by exact Hw. rewrite arm_punct, Hp. reflexivity.
Qed.

Lemma fullmatch_digits c s :
  isD c = true -> forallb isD s = true ->
  fullmatch PATTERN (c :: s) = Some [(3, c :: s)].
Proof.
  intros Hc Hs. pattern_arms.
  rewrite arm_run_fail by (now apply digit_not_word).
  rewrite arm_punct, (digit_not_punct _ Hc).
  erewrite arm_number; [reflexivity | exact Hc |].
  rewrite (drop_while_forallb _ _ Hs), (take_while_forallb _ _ Hs).
  reflexivity.
Qed.

Lemma fullmatch_space c s :
  isS c = true -> forallb isS s = true ->
  fullmatch PATTERN (c :: s) = Some [(4, c :: s)].
Proof.
  intros Hc Hs. pattern_arms.
  rewrite arm_run_fail by (now apply space_not_word).
  rewrite arm_punct, (space_not_punct _ Hc).
  rewrite arm_number_fail by (now apply space_not_digit).
  erewrite arm_run; [reflexivity | exact Hc |].
  fold isS. rewrite (drop_while_forallb _ _ Hs), (take_while_forallb _ _ Hs).
  reflexivity.
Qed.

(** ** What [Token.match] returns *)

Lemma Token_match_cons c s :
  Token_match (c :: s) =
  match lex c s with
  | Some (t, _) => OK (Some t)
  | None => Raise (ValueError (py "Invalid token: " ++ c :: s))
  end.
Proof.
  unfold Token_match, lex.
  destruct (isW c) eqn:Hw.
  { rewrite (match_word _ _ Hw). cbn [group lookup Nat.eqb].
    unfold Word, Token_isword. cbn [token].
    rewrite (fullmatch_word _ _ Hw (forallb_take_while _ _)). reflexivity. }
  destruct (isP c) eqn:Hp.
  { rewrite (match_punct _ _ Hw Hp). cbn [group lookup Nat.eqb].
    unfold Punctuation, Token_ispunct. cbn [token].
    rewrite (fullmatch_punct _ Hw Hp). reflexivity. }
  destruct (isD c) eqn:Hd.
  { rewrite (match_number _ _ Hw Hp Hd). cbn [group lookup Nat.eqb].
    unfold Number, Token_isnumber. cbn [token].
    rewrite (fullmatch_digits _ _ Hd (forallb_take_while _ _)). reflexivity. }
  destruct (isS c) eqn:Hs.
  { rewrite (match_space _ _ Hw Hp Hd Hs). cbn [group lookup Nat.eqb].
    unfold Whitespace, Token_iswhitespace. cbn [token].
    rewrite (fullmatch_space _ _ Hs (forallb_take_while _ _)). reflexivity. }
  now rewrite (match_none _ _ Hw Hp Hd Hs).
Qed.

(** The token that [lex] returns is a non-empty prefix of the text, and the
    text it leaves is what follows the token. *)
Lemma lex_prefix c s t rest :
  lex c s = Some (t, rest) ->
  c :: s = token t ++ rest /\ rest = skipn (Token_len t) (c :: s) /\
  1 <= Token_len t /\ length rest <= length s.
Proof.
  unfold lex, Token_len. intros H.
  repeat match type of H with
  | (if ?b then _ else _) = _ => destruct b
  end; inversion H; subst; clear H; cbn [token length skipn app];
    rewrite ?skipn_take_while, ?take_drop_while;
    repeat split; auto using length_drop_while; lia.
Qed.

(** ** The kind of a lexed token *)

Lemma forallb_impl (p q : char -> bool) (s : str) :
  (forall x, p x = true -> q x = true) ->
  forallb p s = true -> forallb q s = true.
Proof.
  intros Hpq. induction s as [|c s IH]; simpl; [reflexivity|].
  rewrite !andb_true_iff. intros [Hc Hs]. auto.
Qed.

Lemma not_end_of_false (p : char -> bool) :
  (forall c, is_end_char c = true -> p c = false) ->
  forall x, p x = true -> not_end x = true.
Proof.
  intros H x Hx. unfold not_end. destruct (is_end_char x) eqn:E; [|reflexivity].
  rewrite (H x E) in Hx. discriminate.
Qed.

(** A lexed token ends a sentence exactly when its first character is one
    of the three end characters, and then it is that character alone; any
    other lexed token holds no end character. *)
Lemma lex_end_test c s t rest :
  lex c s = Some (t, rest) ->
  end_test t = OK (is_end_char c) /\
  (if is_end_char c then t = mkToken CPunctuation [c]
   else forallb not_end (token t) = true).
Proof.
  unfold lex, end_test, Token_ispunct, Token_isend. intros H.
  destruct (isW c) eqn:Hw.
  { inversion H; subst; clear H. cbn [token cls].
    rewrite (fullmatch_word _ _ Hw (forallb_take_while _ _)).
    cbn [has_group group lookup Nat.eqb].
    destruct (is_end_char c) eqn:E.
    - rewrite (end_not_word _ E) in Hw. discriminate.
    - split; [reflexivity|]. cbn [forallb]. unfold not_end at 1. rewrite E.
      apply (forallb_impl isW); [|apply forallb_take_while].
      apply not_end_of_false, end_not_word. }
  destruct (isP c) eqn:Hp.
  { inversion H; subst; clear H. cbn [token cls].
    rewrite (fullmatch_punct _ Hw Hp). cbn [has_group group lookup Nat.eqb].
    fold (is_end_char c). split; [reflexivity|].
    destruct (is_end_char c) eqn:E; [reflexivity|].
    cbn [forallb]. unfold not_end. now rewrite E. }
  destruct (isD c) eqn:Hd.
  { inversion H; subst; clear H. cbn [token cls].
    rewrite (fullmatch_digits _ _ Hd (forallb_take_while _ _)).
    cbn [has_group group lookup Nat.eqb].
    destruct (is_end_char c) eqn:E.
    - rewrite (end_not_digit _ E) in Hd. discriminate.
    - split; [reflexivity|]. cbn [forallb]. unfold not_end at 1. rewrite E.
      apply (forallb_impl isD); [|apply forallb_take_while].
      apply not_end_of_false, end_not_digit. }
  destruct (isS c) eqn:Hs; [|discriminate].
  inversion H; subst; clear H. cbn [token cls].
  rewrite (fullmatch_space _ _ Hs (forallb_take_while _ _)).
    cbn [has_group group lookup Nat.eqb].
  destruct (is_end_char c) eqn:E.
  - rewrite (end_not_space _ E) in Hs. discriminate.
  - split; [reflexivity|]. cbn [forallb]. unfold not_end at 1. rewrite E.
    apply (forallb_impl isS); [|apply forallb_take_while].
    apply not_end_of_false, end_not_space.
Qed.

(** ** The loop of [_paragraph], one iteration at a time *)

Lemma loop_nil n paragraph sentence :
  _paragraph_loop (S n) [] paragraph sentence = Some (OK paragraph).
Proof. reflexivity. Qed.

Lemma loop_cons n c s paragraph sentence :
  _paragraph_loop (S n) (c :: s) paragraph sentence =
  match lex c s with
  | None => Some (Raise (ValueError (py "Invalid token: " ++ c :: s)))
  | Some (t, rest) =>
      if is_end_char c
      then _paragraph_loop n rest (paragraph ++ [sentence ++ [t]]) []
      else _paragraph_loop n rest paragraph (sentence ++ [t])
  end.
Proof.
  cbn [_paragraph_loop]. rewrite Token_match_cons.
  destruct (lex c s) as [[t rest]|] eqn:L; [|reflexivity].
  destruct (lex_prefix _ _ _ _ L) as (_ & Hrest & Hlen & _).
  destruct (lex_end_test _ _ _ _ L) as [Hend _].
  destruct (Nat.eqb_spec (Token_len t) 0) as [E|_]; [lia|].
  fold (end_test t). rewrite Hend, <- Hrest. reflexivity.
Qed.

Lemma loop_total fuel : forall line paragraph sentence,
  length line < fuel ->
  exists r, _paragraph_loop fuel line paragraph sentence = Some r.
Proof.
  induction fuel as [|n IH]; intros line paragraph sentence Hlen; [lia|].
  destruct line as [|c s].
  - rewrite loop_nil. eauto.
  - rewrite loop_cons. destruct (lex c s) as [[t rest]|] eqn:L; [|eauto].
    destruct (lex_prefix _ _ _ _ L) as (_ & _ & _ & Hr).
    simpl in Hlen. destruct (is_end_char c); apply IH; lia.
Qed.

Lemma loop_mono fuel : forall fuel' line paragraph sentence r,
  fuel <= fuel' ->
  _paragraph_loop fuel line paragraph sentence = Some r ->
  _paragraph_loop fuel' line paragraph sentence = Some r.
Proof.
  induction fuel as [|n IH]; intros fuel' line paragraph sentence r Hle H;
    [discriminate|].
  destruct fuel' as [|n']; [lia|].
  cbn [_paragraph_loop] in *.
  destruct (Token_match line) as [[token|]|e]; try exact H.
  destruct (Nat.eqb (Token_len token) 0); [exact H|].
  destruct (if Token_ispunct token then Token_isend token else OK false)
    as [[|]|e]; try exact H; apply IH; auto; lia.
Qed.

Lemma paragraph_run line : Document__paragraph line = run line [] [].
Proof. reflexivity. Qed.

Lemma run_nil paragraph sentence : run [] paragraph sentence = OK paragraph.
Proof. reflexivity. Qed.

Lemma run_cons c s paragraph sentence :
  run (c :: s) paragraph sentence =
  match lex c s with
  | None => Raise (ValueError (py "Invalid token: " ++ c :: s))
  | Some (t, rest) =>
      if is_end_char c
      then run rest (paragraph ++ [sentence ++ [t]]) []
      else run rest paragraph (sentence ++ [t])
  end.
Proof.
  unfold run. rewrite loop_cons.
  destruct (lex c s) as [[t rest]|] eqn:L; [|reflexivity].
  destruct (lex_prefix _ _ _ _ L) as (_ & _ & _ & Hr).
  assert (F : forall p q,
    _paragraph_loop (length (c :: s)) rest p q =
    _paragraph_loop (S (length rest)) rest p q).
  { intros p q.
    destruct (loop_total (S (length rest)) rest p q) as [r Hrun]; [lia|].
    rewrite Hrun. apply (loop_mono (S (length rest))); [simpl; lia | exact Hrun]. }
  destruct (is_end_char c); now rewrite F.
Qed.

(** Induction on the text that the loop still has to read. *)
Lemma run_ind (P : str -> Prop) :
  P [] ->
  (forall c s,
     (forall rest, length rest <= length s -> P rest) -> P (c :: s)) ->
  forall line, P line.
Proof.
  intros Hnil Hcons line.
  assert (H : forall n l, length l <= n -> P l).
  { induction n as [|n IH]; intros [|c s] Hl; auto; simpl in Hl; [lia|].
    apply Hcons. intros rest Hr. apply IH. lia. }
  apply (H (length line)). lia.
Qed.

(** ** Classification of a non-empty text *)

Lemma lex_none_match c s : lex c s = None <-> match_ PATTERN (c :: s) = None.
Proof.
  unfold lex.
  destruct (isW c) eqn:Hw; [rewrite (match_word _ _ Hw); split; discriminate|].
  destruct (isP c) eqn:Hp; [rewrite (match_punct _ _ Hw Hp); split; discriminate|].
  destruct (isD c) eqn:Hd; [rewrite (match_number _ _ Hw Hp Hd); split; discriminate|].
  destruct (isS c) eqn:Hs; [rewrite (match_space _ _ Hw Hp Hd Hs); split; discriminate|].
  rewrite (match_none _ _ Hw Hp Hd Hs). tauto.
Qed.

Lemma Token_match_raise text e :
  Token_match text = Raise e <->
  text <> [] /\ match_ PATTERN text = None /\ e = InvalidToken text.
Proof.
  destruct text as [|c s].
  - simpl. split; [discriminate | intros [H _]; congruence].
  - rewrite Token_match_cons, <- lex_none_match.
    destruct (lex c s) as [[t rest]|].
    + split; [discriminate | intros (_ & H & _); discriminate].
    + unfold InvalidToken. split.
      * intros H. injection H as <-. repeat split. discriminate.
      * intros (_ & _ & ->). reflexivity.
Qed.

Lemma Token_match_none text : Token_match text = OK None <-> text = [].
Proof.
  destruct text as [|c s].
  - simpl. tauto.
  - rewrite Token_match_cons. destruct (lex c s) as [[t rest]|];
      split; discriminate.
Qed.

(** ** Lists of lines *)

(** [mapM] raises exactly the exception of the first element that raises. *)
Lemma mapM_raise {A B : Type} (f : A -> result B) xs e :
  mapM f xs = Raise e <->
  exists before x after,
    xs = before ++ x :: after /\
    Forall (fun y => exists b, f y = OK b) before /\ f x = Raise e.
Proof.
  induction xs as [|x xs IH]; simpl.
  - split; [discriminate|]. intros (before & y & after & H & _).
    destruct before; discriminate.
  - destruct (f x) as [b|e'] eqn:Fx; simpl.
    + destruct (mapM f xs) as [bs|e''] eqn:M; simpl.
      * split; [discriminate|].
        intros (before & y & after & H & Hb & Hy).
        destruct before as [|z before]; simpl in H; injection H as <- ->.
        -- congruence.
        -- inversion Hb; subst.
           enough (OK bs = Raise e) by discriminate.
           apply IH. eauto 6.
      * split.
        -- intros H. injection H as ->.
           destruct (proj1 IH eq_refl) as (before & y & after & -> & Hb & Hy).
           exists (x :: before), y, after. repeat split; eauto.
        -- intros (before & y & after & H & Hb & Hy).
           destruct before as [|z before]; simpl in H; injection H as <- ->.
           ++ congruence.
           ++ inversion Hb; subst. f_equal.
              assert (G : Raise (A:=list B) e'' = Raise e) by (apply IH; eauto 6).
              now injection G.
    + split.
      * intros H. injection H as ->. exists [], x, xs. repeat split; auto.
      * intros (before & y & after & H & Hb & Hy).
        destruct before as [|z before]; simpl in H; injection H as <- ->.
        -- congruence.
        -- inversion Hb as [|? ? [b Hz] ?]; subst. congruence.
Qed.

(** An exception of the line builder is always the classifier's: it names
    a non-empty rest of the line that no pattern matches. *)
Lemma run_raise : forall line paragraph sentence e,
  run line paragraph sentence = Raise e ->
  exists pre rest,
    line = pre ++ rest /\ rest <> [] /\ match_ PATTERN rest = None /\
    e = InvalidToken rest.
Proof.
  intros line. induction line as [|c s IH] using run_ind;
    intros paragraph sentence e H.
  - discriminate.
  - rewrite run_cons in H. destruct (lex c s) as [[t rest]|] eqn:L.
    + destruct (lex_prefix _ _ _ _ L) as (Hsplit & _ & _ & Hlen).
      assert (G : exists pre r, rest = pre ++ r /\ r <> [] /\
                    match_ PATTERN r = None /\ e = InvalidToken r).
      { destruct (is_end_char c); eapply IH; eauto. }
      destruct G as (pre & r & -> & Hr).
      exists (token t ++ pre), r. rewrite <- app_assoc. tauto.
    + injection H as <-. exists [], (c :: s). repeat split.
      * discriminate.
      * now apply lex_none_match.
Qed.

(** C8.  The loop of [Document._paragraph] terminates on every line: one
    iteration more than the line has characters gives a result, and more
    fuel gives the same one.  A token that [Token.match] returns has at
    least one character, so the text left after it is strictly shorter;
    [None] is returned on the empty text only; and an exception of
    [Token.match] ends the loop in that very iteration. *)
Theorem paragraph_loop_terminates (line : str) (paragraph : Paragraph)
    (sentence : Sentence) :
  (exists r,
     _paragraph_loop (S (length line)) line paragraph sentence = Some r /\
     forall k,
       _paragraph_loop (S (length line) + k) line paragraph sentence = Some r) /\
  match Token_match line with
  | OK (Some token) =>
      1 <= Token_len token /\
      length (skipn (Token_len token) line) < length line
  | OK None => line = []
  | Raise e =>
      forall n, _paragraph_loop (S n) line paragraph sentence = Some (Raise e)
  end.
Proof.
  split.
  - destruct (loop_total (S (length line)) line paragraph sentence) as [r Hr];
      [lia|].
    exists r. split; [exact Hr|]. intros k.
    apply (loop_mono (S (length line))); [lia | exact Hr].
  - destruct line as [|c s]; [reflexivity|].
    rewrite Token_match_cons.
    destruct (lex c s) as [[t rest]|] eqn:L.
    + destruct (lex_prefix _ _ _ _ L) as (_ & <- & H1 & Hr).
      split; [exact H1 | simpl; lia].
    + intros n. rewrite loop_cons, L. reflexivity.
Qed.

(** C5.  [Token.match] returns [None] on the empty text and on no other;
    it raises exactly when the text is not empty and no pattern matches a
    prefix of it, and the exception carries that text.  The loop of the
    line builder passes the exception on at once, an exception of the line
    builder is always such an exception for a rest of the line, and the
    construction of a Document from a string raises the exception of the
    first line that raises, whatever the lines before it produced. *)
Theorem classification_failure_is_fatal (text : str) :
  (Token_match text = OK None <-> text = []) /\
  (forall e,
     Token_match text = Raise e <->
     text <> [] /\ match_ PATTERN text = None /\ e = InvalidToken text) /\
  (forall e n paragraph sentence,
     Token_match text = Raise e ->
     _paragraph_loop (S n) text paragraph sentence = Some (Raise e)) /\
  (forall e,
     Document__paragraph text = Raise e ->
     exists pre rest,
       text = pre ++ rest /\ rest <> [] /\ match_ PATTERN rest = None /\
       e = InvalidToken rest) /\
  (forall e,
     Document_init (FromStr text) = Raise e <->
     exists before line after,
       splitlines text = before ++ line :: after /\
       Forall (fun l => exists p, Document__paragraph l = OK p) before /\
       Document__paragraph line = Raise e).
Proof.
  split; [apply Token_match_none|].
  split; [intros e; apply Token_match_raise|].
  split.
  { intros e n paragraph sentence H. cbn [_paragraph_loop]. now rewrite H. }
  split.
  { intros e H. rewrite paragraph_run in H. eapply run_raise; eauto. }
  intros e. apply mapM_raise.
Qed.

Lemma classification_failure_is_fatal_witness :
  Token_match (py "<b") = Raise (InvalidToken (py "<b")) /\
  Document_init (FromStr (py "a<b")) = Raise (InvalidToken (py "<b")).
Proof.
  split.
  - apply (proj1 (proj2 (classification_failure_is_fatal (py "<b")))).
    split; [discriminate|]. split; [vm_compute|]; reflexivity.
  - apply (proj2 (proj2 (proj2 (proj2
             (classification_failure_is_fatal (py "a<b")))))).
    exists [], (py "a<b"), [].
    split; [vm_compute; reflexivity|]. split; [constructor|].
    vm_compute. reflexivity.
Defined.

(** ** Sentences of a paragraph *)

Lemma Sentence_str_app a b : Sentence_str (a ++ b) = Sentence_str a ++ Sentence_str b.
Proof. unfold Sentence_str. now rewrite map_app, concat_app. Qed.

Lemma Paragraph_str_app a b : Paragraph_str (a ++ b) = Paragraph_str a ++ Paragraph_str b.
Proof. unfold Paragraph_str. now rewrite map_app, concat_app. Qed.

Lemma Sentence_str_one t : Sentence_str [t] = token t.
Proof. unfold Sentence_str. simpl. apply app_nil_r. Qed.

Lemma Paragraph_str_one s : Paragraph_str [s] = Sentence_str s.
Proof. unfold Paragraph_str. simpl. apply app_nil_r. Qed.

Lemma run_complete : forall line paragraph sentence r,
  run line paragraph sentence = OK r ->
  Forall complete paragraph ->
  Forall (fun token => end_test token = OK false) sentence ->
  Forall complete r /\
  exists dropped,
    Forall (fun token => end_test token = OK false) dropped /\
    Paragraph_str r ++ Sentence_str dropped =
    Paragraph_str paragraph ++ Sentence_str sentence ++ line.
Proof.
  intros line. induction line as [|c s IH] using run_ind;
    intros paragraph sentence r H Hp Hs.
  - rewrite run_nil in H. injection H as <-. split; [exact Hp|].
    exists sentence. now rewrite app_nil_r.
  - rewrite run_cons in H. destruct (lex c s) as [[t rest]|] eqn:L;
      [|discriminate].
    destruct (lex_prefix _ _ _ _ L) as (Hsplit & _ & _ & Hlen).
    destruct (lex_end_test _ _ _ _ L) as [Hend Htok].
    rewrite Hsplit. destruct (is_end_char c) eqn:Ec.
    + destruct (IH rest Hlen _ _ _ H) as (Hr & dropped & Hd & E).
      * apply Forall_app. split; [exact Hp|]. constructor; [|constructor].
        subst t. exists sentence, c. auto.
      * constructor.
      * split; [exact Hr|]. exists dropped. split; [exact Hd|].
        rewrite E, Paragraph_str_app, Paragraph_str_one, Sentence_str_app,
          Sentence_str_one.
        simpl. now rewrite <- !app_assoc.
    + destruct (IH rest Hlen _ _ _ H) as (Hr & dropped & Hd & E).
      * exact Hp.
      * apply Forall_app. split; [exact Hs|]. constructor; [exact Hend|constructor].
      * split; [exact Hr|]. exists dropped. split; [exact Hd|].
        rewrite E, Sentence_str_app, Sentence_str_one.
        now rewrite <- !app_assoc.
Qed.

Lemma run_no_end : forall line paragraph sentence r,
  run line paragraph sentence = OK r ->
  forallb not_end line = true -> r = paragraph.
Proof.
  intros line. induction line as [|c s IH] using run_ind;
    intros paragraph sentence r H Hne.
  - rewrite run_nil in H. now injection H.
  - rewrite run_cons in H. destruct (lex c s) as [[t rest]|] eqn:L;
      [|discriminate].
    destruct (lex_prefix _ _ _ _ L) as (Hsplit & _ & _ & Hlen).
    assert (Hrest : forallb not_end rest = true).
    { rewrite Hsplit, forallb_app in Hne. now apply andb_true_iff in Hne. }
    simpl in Hne. apply andb_true_iff in Hne. destruct Hne as [Hc _].
    unfold not_end in Hc. destruct (is_end_char c); [discriminate|].
    eapply IH; eauto.
Qed.

Lemma run_spaces line paragraph sentence :
  forallb isspace line = true -> run line paragraph sentence = OK paragraph.
Proof.
  destruct line as [|c s]; [reflexivity|]. simpl. intros H.
  apply andb_true_iff in H. destruct H as [Hc Hs].
  assert (Sc : isS c = true) by (rewrite isS_eq, Hc; reflexivity).
  assert (Ss : forallb isS s = true).
  { apply (forallb_impl isspace); [|exact Hs].
    intros x Hx. rewrite isS_eq, Hx. reflexivity. }
  rewrite run_cons. unfold lex.
  rewrite (space_not_word _ Sc), (space_not_punct _ Sc), (space_not_digit _ Sc), Sc.
  destruct (is_end_char c) eqn:E.
  - rewrite (end_not_space _ E) in Sc. discriminate.
  - rewrite (drop_while_forallb _ _ Ss). apply run_nil.
Qed.

(** C3.  When the line builder returns a paragraph, every sentence in it
    is complete: it ends with the [Punctuation] token of an end character,
    which passes the end test of the loop, and no earlier token of it
    does.  The tokens read after the last
    such token are dropped: the paragraph followed by them spells the
    line, and none of them passes the end test.  A line without any of the
    three end characters gives the empty paragraph, and a line of white
    space only (the empty line too) is always built, into the empty
    paragraph. *)
Theorem paragraph_keeps_complete_sentences (line : str) :
  (forall paragraph,
     Document__paragraph line = OK paragraph ->
     Forall complete paragraph /\
     (exists dropped : Sentence,
        Forall (fun token => end_test token = OK false) dropped /\
        Paragraph_str paragraph ++ Sentence_str dropped = line) /\
     (forallb (fun c => negb (str_contains (py ".?!") [c])) line = true ->
      paragraph = [])) /\
  (forallb isspace line = true -> Document__paragraph line = OK []).
Proof.
  split.
  - intros paragraph H. rewrite paragraph_run in H.
    destruct (run_complete _ _ _ _ H) as (Hc & dropped & Hd & E);
      [constructor | constructor |].
    split; [exact Hc|]. split; [eauto|].
    intros Hne. eapply run_no_end; eauto.
  - intros H. rewrite paragraph_run. now apply run_spaces.
Qed.

Lemma paragraph_keeps_complete_sentences_witness :
  Forall complete
    [[mkToken CWord (py "Hi"); mkToken CPunctuation (py ".")];
     [mkToken CWhitespace (py " "); mkToken CWord (py "Bye");
      mkToken CPunctuation (py "!")]] /\
  Document__paragraph (py "   ") = OK [].
Proof.
  split.
  - apply (proj1 (paragraph_keeps_complete_sentences (py "Hi. Bye! ok"))).
    vm_compute. reflexivity.
  - apply (proj2 (paragraph_keeps_complete_sentences (py "   "))).
    vm_compute. reflexivity.
Defined.

(** ** Rendering *)

Lemma upto_last_end_cons c s :
  upto_last_end (c :: s) =
  match upto_last_end s with
  | [] => if is_end_char c then [c] else []
  | kept => c :: kept
  end.
Proof. reflexivity. Qed.

Lemma upto_last_end_cons_end c s :
  is_end_char c = true -> upto_last_end (c :: s) = c :: upto_last_end s.
Proof.
  intros H. rewrite upto_last_end_cons, H.
  destruct (upto_last_end s); reflexivity.
Qed.

Lemma upto_last_end_app_not_end a s :
  forallb not_end a = true ->
  upto_last_end (a ++ s) =
  match upto_last_end s with [] => [] | kept => a ++ kept end.
Proof.
  induction a as [|c a IH]; cbn [forallb app]; intros H.
  - destruct (upto_last_end s); reflexivity.
  - apply andb_true_iff in H. destruct H as [Hc Ha].
    rewrite upto_last_end_cons, (IH Ha).
    unfold not_end in Hc.
    destruct (is_end_char c); [discriminate|].
    destruct (upto_last_end s); [reflexivity|]. destruct a; reflexivity.
Qed.

Lemma upto_last_end_snoc a c :
  is_end_char c = true -> upto_last_end (a ++ [c]) = a ++ [c].
Proof.
  intros H. induction a as [|d a IH]; cbn [app].
  - rewrite upto_last_end_cons, H. reflexivity.
  - rewrite upto_last_end_cons, IH. destruct (a ++ [c]) eqn:E; [|reflexivity].
    destruct a; discriminate.
Qed.

Lemma run_render : forall line paragraph sentence r,
  run line paragraph sentence = OK r ->
  Paragraph_str r =
  Paragraph_str paragraph ++
  match upto_last_end line with
  | [] => []
  | kept => Sentence_str sentence ++ kept
  end.
Proof.
  intros line. induction line as [|c s IH] using run_ind;
    intros paragraph sentence r H.
  - rewrite run_nil in H. injection H as <-. simpl. now rewrite app_nil_r.
  - rewrite run_cons in H. destruct (lex c s) as [[t rest]|] eqn:L;
      [|discriminate].
    destruct (lex_prefix _ _ _ _ L) as (Hsplit & _ & _ & Hlen).
    destruct (lex_end_test _ _ _ _ L) as [_ Htok].
    destruct (is_end_char c) eqn:Ec.
    + subst t. cbn [token app] in Hsplit. injection Hsplit as <-.
      rewrite (IH s Hlen _ _ _ H), (upto_last_end_cons_end _ _ Ec).
      rewrite Paragraph_str_app, Paragraph_str_one, Sentence_str_app,
        Sentence_str_one.
      cbn [token]. rewrite <- !app_assoc. f_equal. f_equal.
      destruct (upto_last_end s); reflexivity.
    + rewrite (IH rest Hlen _ _ _ H), Hsplit,
        (upto_last_end_app_not_end _ _ Htok).
      destruct (upto_last_end rest); [reflexivity|].
      rewrite Sentence_str_app, Sentence_str_one, <- !app_assoc.
      destruct (token t); reflexivity.
Qed.

Lemma mapM_ok_map {A B C : Type} (f : A -> result B) (g : B -> C) (h : A -> C) :
  (forall x y, f x = OK y -> g y = h x) ->
  forall xs ys, mapM f xs = OK ys -> map g ys = map h xs.
Proof.
  intros Hfg. induction xs as [|x xs IH]; simpl; intros ys H.
  - injection H as <-. reflexivity.
  - destruct (f x) as [y|] eqn:Fx; [|discriminate]. simpl in H.
    destruct (mapM f xs) as [zs|]; [|discriminate]. simpl in H.
    injection H as <-. simpl. f_equal; auto.
Qed.

Lemma splitlines_one s :
  forallb (fun c => negb (is_linebreak c)) s = true ->
  splitlines s = match s with [] => [] | _ :: _ => [s] end.
Proof.
  induction s as [|c s IH]; [reflexivity|]. simpl. intros H.
  apply andb_true_iff in H. destruct H as [Hc Hs].
  destruct (N.eqb_spec c CR) as [->|_]; [discriminate|].
  destruct (is_linebreak c); [discriminate|].
  rewrite (IH Hs). destruct s; reflexivity.
Qed.

(** C4.  The rendering of a Document built from a string is the lines of
    the string, each cut after its last end character, joined by two line
    feeds; the same holds for a Document built from a stream and the lines
    read from it.  A text without line boundaries whose last character is
    an end character is rendered as it is. *)
Theorem render_of_built_document (text : str) (d : Document) :
  (Document_init (FromStr text) = OK d ->
   Document_str d = join [LF; LF] (map upto_last_end (splitlines text))) /\
  (Document_init (FromStream text) = OK d ->
   Document_str d = join [LF; LF] (map upto_last_end (readlines text))) /\
  (forall body c,
     text = body ++ [c] ->
     str_contains (py ".?!") [c] = true ->
     forallb (fun x => negb (is_linebreak x)) text = true ->
     Document_init (FromStr text) = OK d ->
     Document_str d = text).
Proof.
  assert (E : forall lines,
    mapM Document__paragraph lines = OK d ->
    Document_str d = join [LF; LF] (map upto_last_end lines)).
  { intros lines H. unfold Document_str. f_equal.
    apply (mapM_ok_map Document__paragraph); [|exact H].
    intros line p Hp. rewrite paragraph_run in Hp.
    rewrite (run_render _ _ _ _ Hp). simpl.
    destruct (upto_last_end line); reflexivity. }
  split; [exact (E _)|]. split; [exact (E _)|].
  intros body c -> Hc Hnl H. rewrite (E _ H), (splitlines_one _ Hnl).
  destruct (body ++ [c]) eqn:B; [destruct body; discriminate|].
  rewrite <- B. simpl. now apply upto_last_end_snoc.
Qed.

Lemma render_of_built_document_witness :
  Document_str
    [[[mkToken CWord (py "Hi"); mkToken CPunctuation (py ".")];
      [mkToken CWhitespace (py " "); mkToken CNumber (py "2");
       mkToken CPunctuation (py "!")]]] = py "Hi. 2!".
Proof.
  apply (proj2 (proj2 (render_of_built_document (py "Hi. 2!") _))
           (py "Hi. 2") (chr "!")); vm_compute; reflexivity.
Defined.

(** ** A string and a stream of the same text *)

Lemma drop_while_nil_forallb p s : drop_while p s = [] -> forallb p s = true.
Proof.
  induction s as [|c s IH]; simpl; [reflexivity|].
  destruct (p c); [exact IH | discriminate].
Qed.

(** The line feed that a stream keeps at the end of a line does not change
    the paragraph of the line. *)
Lemma run_LF : forall (line : str) paragraph sentence,
  erase (run (line ++ [LF]) paragraph sentence) =
  erase (run line paragraph sentence).
Proof.
  intros line. induction line as [|c s IH] using run_ind;
    intros paragraph sentence.
  - reflexivity.
  - change ((c :: s) ++ [LF]) with (c :: (s ++ [LF])).
    rewrite !run_cons. unfold lex.
    destruct (isW c) eqn:Hw.
    { destruct (take_while_snoc isW s LF) as [-> ->]; [left; reflexivity|].
      destruct (is_end_char c); apply IH, length_drop_while. }
    destruct (isP c) eqn:Hp.
    { destruct (is_end_char c); apply IH; lia. }
    destruct (isD c) eqn:Hd.
    { destruct (take_while_snoc isD s LF) as [-> ->]; [left; reflexivity|].
      destruct (is_end_char c); apply IH, length_drop_while. }
    destruct (isS c) eqn:Hs; [|reflexivity].
    assert (Ec : is_end_char c = false).
    { destruct (is_end_char c) eqn:E; [|reflexivity].
      rewrite (end_not_space _ E) in Hs. discriminate. }
    rewrite Ec. destruct (drop_while isS s) as [|d rest] eqn:D.
    + destruct (take_while_snoc_all isS s LF) as [_ ->];
        [now apply drop_while_nil_forallb | reflexivity |].
      reflexivity.
    + destruct (take_while_snoc isS s LF) as [-> ->];
        [right; rewrite D; discriminate|].
      rewrite D. rewrite <- D. apply IH, length_drop_while.
Qed.

Lemma lines_agree text :
  (forall c, List.In c text -> is_linebreak c = true -> c = LF) ->
  Forall2 (fun l l' => l' = l \/ l' = l ++ [LF]) (splitlines text) (readlines text).
Proof.
  induction text as [|c s IH]; intros H; [constructor|].
  assert (IH' := IH (fun x Hx => H x (or_intror Hx))).
  assert (Hc := H c (or_introl eq_refl)).
  cbn [splitlines readlines].
  destruct (N.eqb_spec c CR) as [->|_]; [now specialize (Hc eq_refl)|].
  destruct (N.eqb_spec c LF) as [->|Hn].
  - constructor; [right; reflexivity | exact IH'].
  - destruct (is_linebreak c); [now specialize (Hc eq_refl)|].
    destruct IH' as [|l l' ls ls' [->| ->] IH']; constructor; auto.
Qed.

Lemma mapM_erase {A B : Type} (f : A -> result B) (R : A -> A -> Prop) :
  (forall x x', R x x' -> erase (f x') = erase (f x)) ->
  forall xs xs', Forall2 R xs xs' -> erase (mapM f xs') = erase (mapM f xs).
Proof.
  intros Hf xs xs' H. induction H as [|x x' xs xs' Hx _ IH]; [reflexivity|].
  simpl. specialize (Hf _ _ Hx).
  destruct (f x), (f x'); simpl in *; try discriminate; try reflexivity.
  injection Hf as ->.
  destruct (mapM f xs), (mapM f xs'); simpl in *; try discriminate;
    try reflexivity.
  now injection IH as ->.
Qed.

(** C10.  For a text whose only line boundaries are line feeds, building
    the Document from the text as a string and from a stream that holds
    the text succeed on the same texts and give the same Document (when
    one raises, so does the other).  ASCII texts without CR, VT, FF, FS, GS
    and RS are such texts. *)
Theorem str_and_stream_agree (text : str) :
  (forall c, List.In c text -> is_linebreak c = true -> c = LF) ->
  forall d : Document,
    Document_init (FromStr text) = OK d <->
    Document_init (FromStream text) = OK d.
Proof.
  intros H d.
  assert (E : erase (Document_init (FromStream text)) =
              erase (Document_init (FromStr text))).
  { cbn [Document_init].
    apply (mapM_erase Document__paragraph
             (fun l l' => l' = l \/ l' = l ++ [LF])); [|now apply lines_agree].
    intros l l' [->| ->]; [reflexivity|]. rewrite !paragraph_run. apply run_LF. }
  destruct (Document_init (FromStream text)), (Document_init (FromStr text));
    simpl in E; try discriminate.
  - injection E as ->. tauto.
  - split; discriminate.
Qed.

Lemma str_and_stream_agree_witness :
  Document_init (FromStream (py "Hi. x" ++ [LF] ++ py "Bye!" ++ [LF])) =
  OK [[[mkToken CWord (py "Hi"); mkToken CPunctuation (py ".")]];
      [[mkToken CWord (py "Bye"); mkToken CPunctuation (py "!")]]].
Proof.
  apply (str_and_stream_agree (py "Hi. x" ++ [LF] ++ py "Bye!" ++ [LF])).
  - intros c Hc Hb. vm_compute in Hc.
    repeat (destruct Hc as [<-|Hc]; [first [reflexivity | discriminate Hb]|]).
    destruct Hc.
  - vm_compute. reflexivity.
Defined.

(** ** Punctuation *)

Lemma punctuation_set_isP p : List.In p punctuation_set <-> isP p = true.
Proof.
  rewrite isP_eq. change (py "].,;:?!()[{}_@#/&$%~`'" ++ [34%N] ++ py "*=+-")
    with punctuation_set.
  rewrite existsb_exists. split.
  - intros H. exists p. split; [exact H | apply N.eqb_refl].
  - intros (x & Hx & E). apply N.eqb_eq in E. now subst.
Qed.

(** The hyphen is the only character of the set that the word pattern
    takes. *)
Lemma punctuation_not_word p :
  List.In p punctuation_set -> p <> chr "-" -> isW p = false.
Proof.
  intros H Hp. vm_compute in H.
  repeat (destruct H as [<-|H]; [first [reflexivity | now elim Hp]|]).
  destruct H.
Qed.

(** C1, amended.  For every character [p] of the punctuation set other
    than the hyphen and every text [s], [Token.match] on [p] followed by
    [s] returns the [Punctuation] token of [p] alone, of length one. *)
Theorem match_punctuation (p : char) (s : str) :
  List.In p punctuation_set -> p <> chr "-" ->
  Token_match (p :: s) = OK (Some (mkToken CPunctuation [p])) /\
  Token_len (mkToken CPunctuation [p]) = 1.
Proof.
  intros H Hp. split; [|reflexivity].
  rewrite Token_match_cons. unfold lex.
  rewrite (punctuation_not_word _ H Hp), (proj1 (punctuation_set_isP p) H).
  reflexivity.
Qed.

Lemma match_punctuation_witness :
  Token_match (py ".5") = OK (Some (mkToken CPunctuation (py "."))) /\
  Token_len (mkToken CPunctuation (py ".")) = 1.
Proof.
  apply (match_punctuation (chr ".") (py "5")).
  - vm_compute. tauto.
  - discriminate.
Defined.

(** C1 as it is written fails at the hyphen, a member of the set: followed
    by letters it starts a [Word] token that takes the letters too, and on
    its own it is a [Word] token as well. *)
Lemma match_punctuation_counterexample :
  List.In (chr "-") punctuation_set /\
  Token_match (py "-" ++ py "ab") = OK (Some (mkToken CWord (py "-ab"))) /\
  Token_match (py "-" ++ py "ab") <> OK (Some (mkToken CPunctuation (py "-"))) /\
  Token_match (py "-") = OK (Some (mkToken CWord (py "-"))).
Proof.
  split; [vm_compute; tauto|].
  split; [vm_compute; reflexivity|].
  split; [vm_compute; discriminate | vm_compute; reflexivity].
Qed.

(** C9.  The text of one hyphen passes [isword] and fails [ispunct], so
    the [Punctuation] constructor raises on it although the hyphen is in
    the punctuation set; on each other character of the set the constructor
    returns the token. *)
Theorem Punctuation_rejects_hyphen_only :
  List.In (chr "-") punctuation_set /\
  Token_isword (mkToken CPunctuation (py "-")) = true /\
  Token_ispunct (mkToken CPunctuation (py "-")) = false /\
  Punctuation (py "-") = Raise (ValueError (py "Invalid punctuation: -")) /\
  (forall p,
     List.In p punctuation_set -> p <> chr "-" ->
     Punctuation [p] = OK (mkToken CPunctuation [p])).
Proof.
  split; [vm_compute; tauto|].
  split; [vm_compute; reflexivity|].
  split; [vm_compute; reflexivity|].
  split; [vm_compute; reflexivity|].
  intros p H Hp. unfold Punctuation, Token_ispunct. cbn [token].
  rewrite (fullmatch_punct _ (punctuation_not_word _ H Hp)
             (proj1 (punctuation_set_isP p) H)).
  reflexivity.
Qed.

Lemma Punctuation_rejects_hyphen_only_witness :
  Punctuation (py "?") = OK (mkToken CPunctuation (py "?")).
Proof.
  apply (proj2 (proj2 (proj2 (proj2 Punctuation_rejects_hyphen_only)))
           (chr "?")).
  - vm_compute. tauto.
  - discriminate.
Defined.

(** ** Numbers *)

(** C2 fails on the code.  On the text of the specification's example
    [Token.match] returns the [Number] token of the leading digits only:
    the repetition of separator and digits is lazy and nothing follows it
    in the pattern, so [match] never enters it.  The whole text is accepted
    as a number by [isnumber] and by the [Number] constructor, which use
    [fullmatch].  In a line, the separator that follows the digits becomes
    a [Punctuation] token, and a full stop there ends a sentence. *)
Theorem match_number_stops_at_separator :
  Token_match (py "12.345,67") = OK (Some (mkToken CNumber (py "12"))) /\
  Token_isnumber (mkToken CNumber (py "12.345,67")) = true /\
  Number (py "12.345,67") = OK (mkToken CNumber (py "12.345,67")) /\
  Document__paragraph (py "12.345,67.") =
    OK [[mkToken CNumber (py "12"); mkToken CPunctuation (py ".")];
        [mkToken CNumber (py "345"); mkToken CPunctuation (py ",");
         mkToken CNumber (py "67"); mkToken CPunctuation (py ".")]].
Proof. repeat split; vm_compute; reflexivity. Qed.

(** ** The filters *)

Lemma filterM_subseq {A : Type} (f : A -> result bool) xs ys :
  filterM f xs = OK ys -> subseq ys xs.
Proof.
  revert ys. induction xs as [|x xs IH]; simpl; intros ys H.
  - injection H as <-. constructor.
  - destruct (f x) as [b|]; [|discriminate]. simpl in H.
    destruct (filterM f xs) as [zs|]; [|discriminate]. simpl in H.
    injection H as <-. destruct b; constructor; auto.
Qed.

Lemma filterM_raise {A : Type} (f : A -> result bool) xs e :
  filterM f xs = Raise e -> exists x, List.In x xs /\ f x = Raise e.
Proof.
  induction xs as [|x xs IH]; simpl; [discriminate|].
  destruct (f x) as [b|e'] eqn:Fx; simpl.
  - destruct (filterM f xs) as [zs|e'']; simpl; [discriminate|].
    intros H. injection H as ->. destruct (IH eq_refl) as (y & Hy & Fy). eauto.
  - intros H. injection H as ->. eauto.
Qed.

Lemma filterM_pure {A : Type} (g : A -> bool) xs :
  filterM (fun x => OK (g x)) xs = OK (filter g xs).
Proof.
  induction xs as [|x xs IH]; simpl; [reflexivity|].
  rewrite IH. simpl. destruct (g x); reflexivity.
Qed.

Lemma mapM_Forall2 {A B : Type} (f : A -> result B) (R : A -> B -> Prop) :
  (forall x y, f x = OK y -> R x y) ->
  forall xs ys, mapM f xs = OK ys -> Forall2 R xs ys.
Proof.
  intros Hf. induction xs as [|x xs IH]; simpl; intros ys H.
  - injection H as <-. constructor.
  - destruct (f x) as [y|] eqn:Fx; [|discriminate]. simpl in H.
    destruct (mapM f xs) as [zs|]; [|discriminate]. simpl in H.
    injection H as <-. constructor; auto.
Qed.

Lemma mapM_total {A B : Type} (f : A -> result B) xs :
  (forall x, exists y, f x = OK y) -> exists ys, mapM f xs = OK ys.
Proof.
  intros Hf. induction xs as [|x xs [ys IH]]; simpl; [eauto|].
  destruct (Hf x) as [y ->]. rewrite IH. simpl. eauto.
Qed.

Section Filters.
Variable without : Sentence -> result Sentence.

Lemma Document_filter_preserved (d d' : Document) :
(forall s s', without s = OK s' -> subseq s' s) ->
mapM (fun p => mapM without p) d = OK d' -> preserved d d'.
Proof.
intros Hw H.
assert (F : Forall2
  (fun p p' : Paragraph =>
     length p' = length p /\
     Forall2 (fun s s' : Sentence => subseq s' s) p p') d d').
{ apply (mapM_Forall2 (fun p => mapM without p)); [|exact H].
  intros p p' Hp.
  assert (G : Forall2 (fun s s' : Sentence => subseq s' s) p p')
    by (apply (mapM_Forall2 without); auto).
  split; [symmetry; apply (Forall2_length G) | exact G]. }
split; [symmetry; apply (Forall2_length F) | exact F].
Qed.

Lemma Document_filter_total (d : Document) :
(forall s, exists s', without s = OK s' /\ subseq s' s) ->
exists d', mapM (fun p => mapM without p) d = OK d' /\ preserved d d'.
Proof.
intros Hw.
destruct (mapM_total (fun p => mapM without p) d) as [d' Hd].
- intros p. apply mapM_total. intros s. destruct (Hw s) as (s' & -> & _). eauto.
- exists d'. split; [exact Hd|]. apply Document_filter_preserved; [|exact Hd].
  intros s s' Hs. destruct (Hw s) as (s'' & E & Hsub). congruence.
Qed.
End Filters.

Lemma pure_filter_subseq (g : Token -> bool) (s : Sentence) :
  exists s', Sentence_filter s (fun token => OK (g token)) = OK s' /\ subseq s' s.
Proof.
  exists (filter g s). unfold Sentence_filter. rewrite filterM_pure.
  split; [reflexivity|]. apply (filterM_subseq (fun x => OK (g x))), filterM_pure.
Qed.

(** C6.  Each filter keeps the number of paragraphs, the number of
    sentences of every paragraph, and in every sentence a part of its
    tokens in their order; a sentence that loses all its tokens stays as an
    empty sentence.  Four of the five filters return on every Document.
    [without_punct_exceptend] calls [isend] on each token that passes
    [ispunct]: it returns unless the Document holds such a token of a class
    other than [Punctuation], which has no [isend]. *)
Theorem filters_preserve_structure (d : Document) (tokens : list str) :
  (exists d', Document_without_punct d = OK d' /\ preserved d d') /\
  (exists d', Document_without_whitespace d = OK d' /\ preserved d d') /\
  (exists d', Document_without_number d = OK d' /\ preserved d d') /\
  (exists d', Document_without d tokens = OK d' /\ preserved d d') /\
  match Document_without_punct_exceptend d with
  | OK d' => preserved d d'
  | Raise e =>
      exists p s t,
        List.In p d /\ List.In s p /\ List.In t s /\
        Token_ispunct t = true /\ cls t <> CPunctuation /\
        e = no_attribute (cls t) (py "isend")
  end.
Proof.
  split; [|split; [|split; [|split]]].
  - apply (Document_filter_total Sentence_without_punct).
    intros s. apply pure_filter_subseq.
  - apply (Document_filter_total Sentence_without_whitespace).
    intros s. apply pure_filter_subseq.
  - apply (Document_filter_total Sentence_without_number).
    intros s. apply pure_filter_subseq.
  - apply (Document_filter_total (fun s => Sentence_without s tokens)).
    intros s. apply pure_filter_subseq.
  - destruct (Document_without_punct_exceptend d) as [d'|e] eqn:H.
    + apply (Document_filter_preserved Sentence_without_punct_exceptend);
        [|exact H].
      intros s s'. apply filterM_subseq.
    + apply mapM_raise in H. destruct H as (b1 & p & a1 & -> & _ & Hp).
      apply mapM_raise in Hp. destruct Hp as (b2 & s & a2 & -> & _ & Hs).
      apply filterM_raise in Hs. destruct Hs as (t & Ht & Hr).
      exists (b2 ++ s :: a2), s, t.
      split; [apply in_elt|]. split; [apply in_elt|]. split; [exact Ht|].
      destruct (Token_ispunct t); [|discriminate]. split; [reflexivity|].
      unfold Token_isend in Hr.
      destruct (cls t); try discriminate; injection Hr as <-;
        split; (discriminate || reflexivity).
Qed.

(** ** Idempotence *)

Lemma lower_char_idem c : lower_char (lower_char c) = lower_char c.
Proof.
  unfold lower_char.
  destruct ((65 <=? c)%N && (c <=? 90)%N) eqn:E; [|now rewrite E].
  apply andb_true_iff in E. destruct E as [E1 E2].
  apply N.leb_le in E1, E2.
  destruct (N.leb_spec (c + 32) 90); [lia|]. now rewrite andb_false_r.
Qed.

Lemma str_lower_idem s : str_lower (str_lower s) = str_lower s.
Proof.
  unfold str_lower. rewrite map_map. apply map_ext, lower_char_idem.
Qed.

Lemma lower_token_idem t t' : lower_token t = OK t' -> lower_token t' = OK t'.
Proof.
  unfold lower_token. destruct (Token_isword t) eqn:W.
  - unfold Token_lower, Token_transform.
    destruct (cls t); try discriminate.
    unfold Word. destruct (Token_isword (mkToken CWord (str_lower (token t)))) eqn:W';
      [|discriminate].
    simpl. intros H. injection H as <-. rewrite W'. cbn [cls token].
    rewrite str_lower_idem. unfold Word. now rewrite W'.
  - intros H. injection H as <-. now rewrite W.
Qed.

Lemma mapM_idem {A : Type} (f : A -> result A) :
  (forall x y, f x = OK y -> f y = OK y) ->
  forall xs ys, mapM f xs = OK ys -> mapM f ys = OK ys.
Proof.
  intros Hf. induction xs as [|x xs IH]; simpl; intros ys H.
  - injection H as <-. reflexivity.
  - destruct (f x) as [y|] eqn:Fx; [|discriminate]. simpl in H.
    destruct (mapM f xs) as [zs|]; [|discriminate]. simpl in H.
    injection H as <-. simpl. rewrite (Hf _ _ Fx). simpl.
    rewrite (IH _ eq_refl). reflexivity.
Qed.

Lemma filter_idem {A : Type} (g : A -> bool) xs :
  filter g (filter g xs) = filter g xs.
Proof.
  induction xs as [|x xs IH]; simpl; [reflexivity|].
  destruct (g x) eqn:G; simpl; [rewrite G; f_equal|]; exact IH.
Qed.

Lemma Document_lower_idem d d' :
  Document_lower d = OK d' -> Document_lower d' = OK d'.
Proof.
  apply (mapM_idem Paragraph_lower). intros p p'.
  apply (mapM_idem Sentence_lower). intros s s'.
  apply (mapM_idem lower_token), lower_token_idem.
Qed.

Lemma Document_without_punct_idem d d' :
  Document_without_punct d = OK d' -> Document_without_punct d' = OK d'.
Proof.
  apply (mapM_idem Paragraph_without_punct). intros p p'.
  apply (mapM_idem Sentence_without_punct). intros s s'.
  unfold Sentence_without_punct, Sentence_filter. rewrite !filterM_pure.
  intros H. injection H as <-. now rewrite filter_idem.
Qed.

(** C7.  [lower] after [lower] is [lower], and [without_punct] after
    [without_punct] is [without_punct]: the second application returns
    what the first returned.  [without_punct] returns on every Document;
    where [lower] raises, so does [lower] after [lower], with the same
    exception. *)
Theorem lower_and_without_punct_idempotent (d : Document) :
  (d' <- Document_lower d ;; Document_lower d') = Document_lower d /\
  (d' <- Document_without_punct d ;; Document_without_punct d') =
    Document_without_punct d /\
  (exists d', Document_without_punct d = OK d').
Proof.
  split; [|split].
  - destruct (Document_lower d) as [d'|e] eqn:H; [|reflexivity].
    simpl. now apply (Document_lower_idem d).
  - destruct (Document_without_punct d) as [d'|e] eqn:H; [|reflexivity].
    simpl. now apply (Document_without_punct_idem d).
  - destruct (Document_filter_total Sentence_without_punct d) as (d' & H & _).
    + intros s. apply pure_filter_subseq.
    + eauto.
Qed.

(** ** Documents that the builder returns *)

Lemma run_lexed : forall (line : str) paragraph sentence r,
  run line paragraph sentence = OK r ->
  Forall (Forall lexed) paragraph -> Forall lexed sentence ->
  Forall (Forall lexed) r.
Proof.
  intros line. induction line as [|c s IH] using run_ind;
    intros paragraph sentence r H Hp Hs.
  - rewrite run_nil in H. now injection H as <-.
  - rewrite run_cons in H. destruct (lex c s) as [[t rest]|] eqn:L;
      [|discriminate].
    destruct (lex_prefix _ _ _ _ L) as (_ & _ & _ & Hlen).
    assert (Ht : Forall lexed (sentence ++ [t])).
    { apply Forall_app. split; [exact Hs|].
      constructor; [exists c, s, rest; exact L | constructor]. }
    destruct (is_end_char c).
    + apply (IH rest Hlen _ _ _ H); [|constructor].
      apply Forall_app. split; [exact Hp|]. constructor; [exact Ht|constructor].
    + apply (IH rest Hlen _ _ _ H); assumption.
Qed.

Lemma mapM_Forall {A B : Type} (f : A -> result B) (P : B -> Prop) :
  (forall x y, f x = OK y -> P y) ->
  forall xs ys, mapM f xs = OK ys -> Forall P ys.
Proof.
  intros Hf. induction xs as [|x xs IH]; simpl; intros ys H.
  - injection H as <-. constructor.
  - destruct (f x) as [y|] eqn:Fx; [|discriminate]. simpl in H.
    destruct (mapM f xs) as [zs|]; [|discriminate]. simpl in H.
    injection H as <-. constructor; eauto.
Qed.

Lemma built_lexed (src : str) (from_stream : bool) (d : Document) :
  Document_init (if from_stream then FromStream src else FromStr src) = OK d ->
  Forall (Forall (Forall lexed)) d.
Proof.
  intros H.
  assert (G : forall line p, Document__paragraph line = OK p ->
                Forall (Forall lexed) p).
  { intros line p Hp. rewrite paragraph_run in Hp.
    apply (run_lexed _ _ _ _ Hp); constructor. }
  destruct from_stream; cbn [Document_init] in H;
    apply (mapM_Forall Document__paragraph _ G _ _ H).
Qed.

Lemma isW_lower c : isW c = true -> isW (lower_char c) = true.
Proof.
  intros H. unfold lower_char.
  destruct ((65 <=? c)%N && (c <=? 90)%N) eqn:E; [|exact H].
  rewrite isW_eq. apply andb_true_iff in E. destruct E as [E1 E2].
  apply N.leb_le in E1, E2.
  destruct (N.leb_spec 97 (c + 32)); [|lia].
  destruct (N.leb_spec (c + 32) 122); [|lia].
  now rewrite orb_true_r.
Qed.

Lemma lexed_lower t : lexed t -> exists t', lower_token t = OK t'.
Proof.
  intros (c & s & rest & L). unfold lex in L.
  unfold lower_token, Token_isword.
  destruct (isW c) eqn:Hw.
  { inversion L; subst; clear L. cbn [token].
    rewrite (fullmatch_word _ _ Hw (forallb_take_while _ _)).
    cbn [has_group group lookup Nat.eqb].
    unfold Token_lower, Token_transform, Word, Token_isword.
    cbn [cls token str_lower map].
    rewrite (fullmatch_word _ _ (isW_lower _ Hw)).
    - cbn. eauto.
    - rewrite forallb_forall. intros x Hx. apply in_map_iff in Hx.
      destruct Hx as (y & <- & Hy). apply isW_lower.
      pose proof (forallb_take_while isW s) as F.
      rewrite forallb_forall in F. auto. }
  destruct (isP c) eqn:Hp.
  { inversion L; subst; clear L. cbn [token].
    rewrite (fullmatch_punct _ Hw Hp). cbn. eauto. }
  destruct (isD c) eqn:Hd.
  { inversion L; subst; clear L. cbn [token].
    rewrite (fullmatch_digits _ _ Hd (forallb_take_while _ _)). cbn. eauto. }
  destruct (isS c) eqn:Hs; [|discriminate].
  inversion L; subst; clear L. cbn [token].
  rewrite (fullmatch_space _ _ Hs (forallb_take_while _ _)). cbn. eauto.
Qed.

Lemma lexed_isend t :
  lexed t -> Token_ispunct t = true -> cls t = CPunctuation.
Proof.
  intros (c & s & rest & L). unfold lex in L. unfold Token_ispunct.
  destruct (isW c) eqn:Hw.
  { inversion L; subst; clear L. cbn [token].
    rewrite (fullmatch_word _ _ Hw (forallb_take_while _ _)). discriminate. }
  destruct (isP c) eqn:Hp; [inversion L; reflexivity|].
  destruct (isD c) eqn:Hd.
  { inversion L; subst; clear L. cbn [token].
    rewrite (fullmatch_digits _ _ Hd (forallb_take_while _ _)). discriminate. }
  destruct (isS c) eqn:Hs; [|discriminate].
  inversion L; subst; clear L. cbn [token].
  rewrite (fullmatch_space _ _ Hs (forallb_take_while _ _)). discriminate.
Qed.

Lemma mapM_total_on {A B : Type} (f : A -> result B) (P : A -> Prop) xs :
  (forall x, P x -> exists y, f x = OK y) ->
  Forall P xs -> exists ys, mapM f xs = OK ys.
Proof.
  intros Hf H. induction H as [|x xs Hx _ [ys IH]]; simpl; [eauto|].
  destruct (Hf x Hx) as [y ->]. rewrite IH. simpl. eauto.
Qed.

Lemma filterM_total_on {A : Type} (f : A -> result bool) (P : A -> Prop) xs :
  (forall x, P x -> exists b, f x = OK b) ->
  Forall P xs -> exists ys, filterM f xs = OK ys.
Proof.
  intros Hf H. induction H as [|x xs Hx _ [ys IH]]; simpl; [eauto|].
  destruct (Hf x Hx) as [b ->]. rewrite IH. simpl. eauto.
Qed.

(** On a Document that the builder returned, from a string or from a
    stream, [lower] and [without_punct_exceptend] return. *)
Lemma built_document_transforms_return (src : str) (from_stream : bool)
    (d : Document) :
  Document_init (if from_stream then FromStream src else FromStr src) = OK d ->
  (exists d', Document_lower d = OK d') /\
  (exists d', Document_without_punct_exceptend d = OK d').
Proof.
  intros H. pose proof (built_lexed _ _ _ H) as W. split.
  - apply (mapM_total_on Paragraph_lower (Forall (Forall lexed))); [|exact W].
    intros p Hp.
    apply (mapM_total_on Sentence_lower (Forall lexed)); [|exact Hp].
    intros s Hs.
    apply (mapM_total_on lower_token lexed); [|exact Hs].
    apply lexed_lower.
  - apply (mapM_total_on Paragraph_without_punct_exceptend
             (Forall (Forall lexed))); [|exact W].
    intros p Hp.
    apply (mapM_total_on Sentence_without_punct_exceptend (Forall lexed));
      [|exact Hp].
    intros s Hs. unfold Sentence_without_punct_exceptend, Sentence_filter.
    apply (filterM_total_on _ lexed); [|exact Hs].
    intros t Ht. destruct (Token_ispunct t) eqn:E; simpl; [|eauto].
    unfold Token_isend. rewrite (lexed_isend _ Ht E). eauto.
Qed.

(** * More of the code *)

(** ** [fullmatch] on every text *)

Lemma consumed_all (s : str) : consumed s [] = s.
Proof. rewrite <- (app_nil_r s) at 1. apply consumed_app. Qed.

Lemma drop_while_forallb_false p s :
  forallb p s = false -> exists c r, drop_while p s = c :: r.
Proof.
  intros H. destruct (drop_while p s) as [|c r] eqn:D; [|eauto].
  rewrite (drop_while_nil_forallb _ _ D) in H. discriminate.
Qed.

Lemma orelse_None {A : Type} (x : option A) : orelse x None = x.
Proof. destruct x; reflexivity. Qed.

(** A greedy repetition of one set, before a continuation that rejects
    every text that starts in the set, cannot gain by giving characters
    back: its answer is the continuation's at the end of the longest run. *)
Lemma greedy_In_skip {A : Type} cs fuel : forall (s : str) g (k : cont A),
  (forall c r g', in_set cs c = true -> k (c :: r) g' = None) ->
  length s <= fuel ->
  greedy fuel (exec (In cs)) s g k = k (drop_while (in_set cs) s) g.
Proof.
  induction fuel as [|n IH]; intros s g k Hk Hlen.
  - destruct s; [reflexivity | simpl in Hlen; lia].
  - destruct s as [|c s]; [reflexivity|].
    cbn [greedy exec drop_while]. destruct (in_set cs c) eqn:E.
    + assert (L : (length s <? length (c :: s)) = true)
        by (apply Nat.ltb_lt; simpl; lia).
      rewrite L, (Hk c s g E), orelse_None.
      apply IH; [exact Hk | simpl in Hlen; lia].
    + reflexivity.
Qed.

Lemma exec_Plus {A : Type} r (s : str) g (k : cont A) :
  exec (Plus r) s g k =
  exec r s g (fun s1 g1 => greedy (length s1) (exec r) s1 g1 k).
Proof. reflexivity. Qed.

(** The continuation of [fullmatch]. *)
Definition at_end : cont Match :=
  fun s1 g => match s1 with [] => Some g | _ :: _ => None end.

Lemma arm_run_full i cs c (s : str) g :
  exec (Group i (Plus (In cs))) (c :: s) g at_end =
  if in_set cs c && forallb (in_set cs) s
  then Some ((i, c :: s) :: g) else None.
Proof.
  rewrite exec_Group, exec_Plus, exec_In_cons.
  destruct (in_set cs c); [|reflexivity].
  rewrite greedy_In_skip; [| intros; reflexivity | lia].
  cbn [andb]. destruct (forallb (in_set cs) s) eqn:F.
  - rewrite (drop_while_forallb _ _ F). cbn [at_end]. now rewrite consumed_all.
  - destruct (drop_while_forallb_false _ _ F) as (x & r & ->). reflexivity.
Qed.

Lemma arm_punct_full i c (s : str) g :
  exec (Group i (In PUNCT_SET)) (c :: s) g at_end =
  if isP c && match s with [] => true | _ :: _ => false end
  then Some ((i, [c]) :: g) else None.
Proof.
  rewrite arm_punct. destruct (isP c); [|reflexivity]. destruct s; reflexivity.
Qed.

Lemma digit_not_sep c : isD c = true -> isSep c = false.
Proof.
  intros H. apply not_true_is_false. intros H'.
  rewrite isD_eq in H. unfold isSep, in_set, SEP_SET in H'.
  cbn [existsb item_mem] in H'. change (chr ".") with 46%N in H'.
  change (chr ",") with 44%N in H'. bool_prop. lia.
Qed.

Lemma number_form_digits s :
  number_form InDigits s = number_tail (drop_while isD s).
Proof.
  induction s as [|c s IH]; [reflexivity|].
  cbn [number_form drop_while]. destruct (isD c) eqn:D.
  - rewrite (digit_not_sep _ D), IH. cbn. now rewrite orb_false_r.
  - reflexivity.
Qed.

Section NumberArm.
Variable whole : str.
Variable i : nat.

(** The end of group [i], then the end of the text. *)
Definition close : cont Match :=
  fun s1 g1 => at_end s1 ((i, consumed whole s1) :: g1).

Definition more : regex := Cat (In SEP_SET) (Plus (In DIGIT_SET)).

Lemma lazy_more_digit fuel c (s : str) g :
  isD c = true -> lazy fuel (exec more) (c :: s) g close = None.
Proof.
  intros D. destruct fuel; [reflexivity|].
  cbn [lazy close at_end orelse]. unfold more. rewrite exec_Cat, exec_In_cons.
  fold (isSep c). now rewrite (digit_not_sep _ D).
Qed.

Lemma lazy_more fuel : forall (s : str) g,
  length s <= fuel ->
  lazy fuel (exec more) s g close =
  if number_tail s then Some ((i, whole) :: g) else None.
Proof.
  induction fuel as [|n IH]; intros s g Hlen.
  - destruct s; [|simpl in Hlen; lia].
    cbn [lazy close at_end number_tail]. now rewrite consumed_all.
  - destruct s as [|x r].
    + cbn [lazy close at_end number_tail orelse]. now rewrite consumed_all.
    + cbn [lazy close at_end orelse number_tail]. unfold more at 1.
      rewrite exec_Cat, exec_In_cons. fold (isSep x).
      destruct (isSep x); [|reflexivity]. cbn [andb].
      destruct r as [|d r']; [reflexivity|].
      rewrite exec_Plus, exec_In_cons. cbn [number_form]. fold (isD d).
      destruct (isD d) eqn:D; [|reflexivity].
      cbn [andb]. rewrite greedy_In_skip; [| |lia].
      * assert (L : (length (drop_while (in_set DIGIT_SET) r') <?
                     length (x :: d :: r')) = true).
        { apply Nat.ltb_lt. pose proof (length_drop_while isD r'). simpl.
          unfold isD in *. lia. }
        rewrite L, IH.
        -- now rewrite number_form_digits.
        -- pose proof (length_drop_while isD r'). simpl in Hlen.
           unfold isD in *. lia.
      * intros c0 r0 g' D0. fold more.
        destruct (length (c0 :: r0) <? length (x :: d :: r'));
          [now apply lazy_more_digit | reflexivity].
Qed.
End NumberArm.

Lemma arm_number_full i c (s : str) g :
  exec (Group i (Cat (Plus (In DIGIT_SET)) (StarLazy more))) (c :: s) g at_end =
  if number_form NeedDigit (c :: s) then Some ((i, c :: s) :: g) else None.
Proof.
  rewrite exec_Group, exec_Cat, exec_Plus, exec_In_cons.
  cbn [number_form]. fold (isD c).
  destruct (isD c); [|reflexivity]. cbn [andb].
  rewrite greedy_In_skip; [| |lia].
  - rewrite exec_StarLazy. fold (close (c :: s) i).
    rewrite lazy_more; [|lia]. now rewrite number_form_digits.
  - intros c0 r0 g' D0. rewrite exec_StarLazy. fold (close (c :: s) i).
    now apply lazy_more_digit.
Qed.

(** [fullmatch] of the pattern, on every text. *)
Lemma fullmatch_PATTERN (text : str) :
  fullmatch PATTERN text =
  match text with
  | [] => None
  | c :: s =>
      if isW c && forallb isW s then Some [(1, text)]
      else if isP c && match s with [] => true | _ :: _ => false end
      then Some [(2, [c])]
      else if number_form NeedDigit text then Some [(3, text)]
      else if isS c && forallb isS s then Some [(4, text)]
      else None
  end.
Proof.
  destruct text as [|c s]; [reflexivity|].
  unfold fullmatch, PATTERN. fold at_end. fold more. rewrite !exec_Or.
  rewrite !arm_run_full, arm_punct_full, arm_number_full.
  fold (isW c) (isS c) isW isS.
  destruct (isW c && forallb isW s); [reflexivity|].
  destruct (isP c && match s with [] => true | _ :: _ => false end);
    [reflexivity|].
  destruct (number_form NeedDigit (c :: s)); [reflexivity|].
  destruct (isS c && forallb isS s); reflexivity.
Qed.

(** ** The kind predicates *)

Lemma kind_groups (text : str) :
  has_group (fullmatch PATTERN text) 1 = nonempty_all isW text /\
  has_group (fullmatch PATTERN text) 2 =
    match text with [c] => isP c && negb (isW c) | _ => false end /\
  has_group (fullmatch PATTERN text) 3 = number_form NeedDigit text /\
  has_group (fullmatch PATTERN text) 4 = nonempty_all isS text.
Proof.
  rewrite fullmatch_PATTERN. destruct text as [|c s]; [repeat split|].
  destruct s as [|x s']; cbn [nonempty_all forallb number_form];
    destruct (isW c) eqn:W, (isP c) eqn:P, (isD c) eqn:D, (isS c) eqn:S;
    try (rewrite (digit_not_word _ D) in W; discriminate W);
    try (rewrite (digit_not_punct _ D) in P; discriminate P);
    try (rewrite (space_not_word _ S) in W; discriminate W);
    try (rewrite (space_not_punct _ S) in P; discriminate P);
    try (rewrite (space_not_digit _ S) in D; discriminate D);
    cbn [andb negb orb];
    repeat match goal with
    | |- context [if ?b then _ else _] => destruct b eqn:?
    end;
    cbn [has_group group lookup Nat.eqb andb negb orb];
    repeat split; reflexivity.
Qed.

(** X1.  The four kind predicates of a token, of whatever class, read its
    text only: [isword] holds for a non-empty text of letters and hyphens,
    [ispunct] for a text of one character of the punctuation set that is
    not a word character (so not for the hyphen), [isnumber] for digits
    followed by any number of groups of one separator and digits, and
    [iswhitespace] for a non-empty text of white space. *)
Theorem kind_predicates (t : Token) :
  Token_isword t = nonempty_all (in_set WORD_SET) (token t) /\
  Token_ispunct t =
    match token t with
    | [c] => in_set PUNCT_SET c && negb (in_set WORD_SET c)
    | _ => false
    end /\
  Token_isnumber t = number_form NeedDigit (token t) /\
  Token_iswhitespace t = nonempty_all isspace (token t).
Proof.
  destruct (kind_groups (token t)) as (H1 & H2 & H3 & H4).
  repeat split; try assumption.
  unfold Token_iswhitespace. rewrite H4. destruct (token t) as [|c s];
    [reflexivity|].
  cbn [nonempty_all]. apply eq_true_iff_eq. rewrite !forallb_forall.
  split; intros H x Hx; specialize (H x Hx); rewrite isS_eq in *;
    now rewrite orb_false_r in *.
Qed.

(** X2.  No token passes two of the four kind predicates. *)
Theorem kinds_exclusive (t : Token) : kinds_passed t <= 1.
Proof.
  unfold kinds_passed, Token_isword, Token_ispunct, Token_isnumber,
    Token_iswhitespace.
  destruct (kind_groups (token t)) as (-> & -> & -> & ->).
  destruct (token t) as [|c s]; [cbn; lia|].
  cbn [nonempty_all forallb number_form].
  destruct (isW c) eqn:W, (isP c) eqn:P, (isD c) eqn:D, (isS c) eqn:S;
    try (rewrite (digit_not_word _ D) in W; discriminate W);
    try (rewrite (digit_not_punct _ D) in P; discriminate P);
    try (rewrite (space_not_word _ S) in W; discriminate W);
    try (rewrite (space_not_punct _ S) in P; discriminate P);
    try (rewrite (space_not_digit _ S) in D; discriminate D);
    cbn [andb negb orb];
    destruct (forallb isW s), (number_form InDigits s), (forallb isS s), s;
    cbn; lia.
Qed.

(** X3.  [Token.match] on a non-empty text is decided by the first
    character: a letter or hyphen starts the [Word] of the longest run of
    letters and hyphens; any other punctuation character is a
    [Punctuation] of its own; a digit starts the [Number] of the longest
    run of digits, which never holds a separator; a white space character
    starts the [Whitespace] of the longest run of white space; any other
    character raises with the whole text in the message. *)
Theorem match_by_first_character (c : char) (s : str) :
  Token_match (c :: s) =
  if in_set WORD_SET c
  then OK (Some (mkToken CWord (c :: take_while (in_set WORD_SET) s)))
  else if in_set PUNCT_SET c
  then OK (Some (mkToken CPunctuation [c]))
  else if in_set DIGIT_SET c
  then OK (Some (mkToken CNumber (c :: take_while (in_set DIGIT_SET) s)))
  else if isspace c
  then OK (Some (mkToken CWhitespace (c :: take_while isspace s)))
  else Raise (ValueError (py "Invalid token: " ++ c :: s)).
Proof.
  rewrite Token_match_cons. unfold lex. fold isW isP isD.
  destruct (isW c); [reflexivity|]. destruct (isP c); [reflexivity|].
  destruct (isD c); [reflexivity|].
  rewrite isS_eq, orb_false_r. destruct (isspace c); [|reflexivity].
  do 3 f_equal. f_equal. clear. induction s as [|x s IH]; [reflexivity|].
  cbn [take_while]. rewrite isS_eq, orb_false_r.
  destruct (isspace x); [now rewrite IH | reflexivity].
Qed.

(** X4.  A token that [Token.match] returns is of one of the four
    subclasses, passes the kind predicate of its class and fails the other
    three, and its text is a non-empty prefix of the text that was
    matched. *)
Theorem matched_token_kind (text : str) (t : Token) :
  Token_match text = OK (Some t) ->
  (Token_isword t, Token_ispunct t, Token_isnumber t, Token_iswhitespace t) =
    match cls t with
    | CWord => (true, false, false, false)
    | CPunctuation => (false, true, false, false)
    | CNumber => (false, false, true, false)
    | CWhitespace => (false, false, false, true)
    | CToken => (false, false, false, false)
    end /\
  cls t <> CToken /\
  token t <> [] /\
  firstn (length (token t)) text = token t.
Proof.
  destruct text as [|c s]; [discriminate|].
  rewrite Token_match_cons. destruct (lex c s) as [[t' rest]|] eqn:L;
    [|discriminate].
  intros H. injection H as ->.
  destruct (lex_prefix _ _ _ _ L) as (Hsplit & _ & Hlen & _).
  assert (K : (Token_isword t, Token_ispunct t, Token_isnumber t,
               Token_iswhitespace t) =
              match cls t with
              | CWord => (true, false, false, false)
              | CPunctuation => (false, true, false, false)
              | CNumber => (false, false, true, false)
              | CWhitespace => (false, false, false, true)
              | CToken => (false, false, false, false)
              end /\ cls t <> CToken).
  { unfold lex in L. unfold Token_isword, Token_ispunct, Token_isnumber,
      Token_iswhitespace.
    destruct (isW c) eqn:W.
    { inversion L; subst; clear L. cbn [token cls].
      rewrite (fullmatch_word _ _ W (forallb_take_while _ _)).
      split; [reflexivity | discriminate]. }
    destruct (isP c) eqn:P.
    { inversion L; subst; clear L. cbn [token cls].
      rewrite (fullmatch_punct _ W P). split; [reflexivity | discriminate]. }
    destruct (isD c) eqn:D.
    { inversion L; subst; clear L. cbn [token cls].
      rewrite (fullmatch_digits _ _ D (forallb_take_while _ _)).
      split; [reflexivity | discriminate]. }
    destruct (isS c) eqn:S; [|discriminate].
    inversion L; subst; clear L. cbn [token cls].
    rewrite (fullmatch_space _ _ S (forallb_take_while _ _)).
    split; [reflexivity | discriminate]. }
  destruct K as [K1 K2]. split; [exact K1|]. split; [exact K2|].
  split.
  - unfold Token_len in Hlen. destruct (token t); [simpl in Hlen; lia|discriminate].
  - rewrite Hsplit. rewrite firstn_app, Nat.sub_diag, firstn_all. simpl.
    apply app_nil_r.
Qed.

Lemma matched_token_kind_witness :
  (Token_isword (mkToken CNumber (py "12")),
   Token_ispunct (mkToken CNumber (py "12")),
   Token_isnumber (mkToken CNumber (py "12")),
   Token_iswhitespace (mkToken CNumber (py "12"))) =
  (false, false, true, false) /\
  firstn 2 (py "12.5") = py "12".
Proof.
  destruct (matched_token_kind (py "12.5") (mkToken CNumber (py "12")))
    as (H1 & _ & _ & H4); [vm_compute; reflexivity|].
  split; [exact H1 | exact H4].
Defined.

(** ** Case folding *)

Lemma lower_char_upper c :
  (65 <= c <= 90)%N -> lower_char c = (c + 32)%N.
Proof.
  intros [H1 H2]. unfold lower_char.
  apply N.leb_le in H1, H2. now rewrite H1, H2.
Qed.

Lemma lower_char_other c :
  ~ (65 <= c <= 90)%N -> lower_char c = c.
Proof.
  intros H. unfold lower_char.
  destruct (N.leb_spec 65 c), (N.leb_spec c 90); cbn [andb]; try reflexivity.
  lia.
Qed.

Lemma upper_char_lower c :
  (97 <= c <= 122)%N -> upper_char c = (c - 32)%N.
Proof.
  intros [H1 H2]. unfold upper_char.
  apply N.leb_le in H1, H2. now rewrite H1, H2.
Qed.

Lemma upper_char_other c :
  ~ (97 <= c <= 122)%N -> upper_char c = c.
Proof.
  intros H. unfold upper_char.
  destruct (N.leb_spec 97 c), (N.leb_spec c 122); cbn [andb]; try reflexivity.
  lia.
Qed.

Ltac fold_char c :=
  let H := fresh in
  assert (H : (c < 65 \/ 65 <= c <= 90 \/ 90 < c < 97 \/ 97 <= c <= 122 \/
               122 < c)%N) by lia;
  destruct H as [H|[H|[H|[H|H]]]];
  repeat first
    [ rewrite (lower_char_upper c) by lia
    | rewrite (lower_char_other c) by lia
    | rewrite (upper_char_lower c) by lia
    | rewrite (upper_char_other c) by lia
    | rewrite (lower_char_upper (c - 32)) by lia
    | rewrite (lower_char_other (c - 32)) by lia
    | rewrite (upper_char_lower (c + 32)) by lia
    | rewrite (upper_char_other (c + 32)) by lia
    | rewrite (upper_char_other (c - 32)) by lia
    | rewrite (lower_char_other (c + 32)) by lia ];
  try lia; try reflexivity.

Lemma upper_char_idem c : upper_char (upper_char c) = upper_char c.
Proof. fold_char c. Qed.

Lemma upper_lower_char c : upper_char (lower_char c) = upper_char c.
Proof. fold_char c. Qed.

Lemma lower_upper_char c : lower_char (upper_char c) = lower_char c.
Proof. fold_char c. Qed.

Lemma str_upper_idem s : str_upper (str_upper s) = str_upper s.
Proof. unfold str_upper. rewrite map_map. apply map_ext, upper_char_idem. Qed.

Lemma str_upper_lower s : str_upper (str_lower s) = str_upper s.
Proof.
  unfold str_upper, str_lower. rewrite map_map. apply map_ext, upper_lower_char.
Qed.

Lemma str_lower_upper s : str_lower (str_upper s) = str_lower s.
Proof.
  unfold str_upper, str_lower. rewrite map_map. apply map_ext, lower_upper_char.
Qed.

Lemma lower_token_Word t t' :
  lower_token t = OK t' ->
  (if Token_isword t then cls t = CWord else True) /\
  (if Token_isword t then Word (str_lower (token t)) else OK t) = OK t'.
Proof.
  unfold lower_token, Token_lower, Token_transform.
  destruct (Token_isword t); [|auto].
  destruct (cls t); try discriminate. auto.
Qed.

Lemma upper_token_Word t t' :
  upper_token t = OK t' ->
  (if Token_isword t then cls t = CWord else True) /\
  (if Token_isword t then Word (str_upper (token t)) else OK t) = OK t'.
Proof.
  unfold upper_token, Token_upper, Token_transform.
  destruct (Token_isword t); [|auto].
  destruct (cls t); try discriminate. auto.
Qed.

Lemma Word_passes text t :
  Word text = OK t -> t = mkToken CWord text /\ Token_isword t = true.
Proof.
  unfold Word. destruct (Token_isword (mkToken CWord text)) eqn:W;
    [|discriminate].
  cbn [negb]. intros H. injection H as <-. auto.
Qed.

Lemma upper_after_lower t t' :
  lower_token t = OK t' -> upper_token t' = upper_token t.
Proof.
  intros H. destruct (lower_token_Word _ _ H) as [Hc Hw].
  unfold upper_token. destruct (Token_isword t) eqn:W.
  - destruct (Word_passes _ _ Hw) as [-> W']. rewrite W'.
    unfold Token_upper, Token_transform. cbn [cls token].
    now rewrite Hc, str_upper_lower.
  - injection Hw as <-. now rewrite W.
Qed.

Lemma lower_after_upper t t' :
  upper_token t = OK t' -> lower_token t' = lower_token t.
Proof.
  intros H. destruct (upper_token_Word _ _ H) as [Hc Hw].
  unfold lower_token. destruct (Token_isword t) eqn:W.
  - destruct (Word_passes _ _ Hw) as [-> W']. rewrite W'.
    unfold Token_lower, Token_transform. cbn [cls token].
    now rewrite Hc, str_lower_upper.
  - injection Hw as <-. now rewrite W.
Qed.

Lemma upper_after_upper t t' :
  upper_token t = OK t' -> upper_token t' = OK t'.
Proof.
  intros H. destruct (upper_token_Word _ _ H) as [Hc Hw].
  unfold upper_token. destruct (Token_isword t) eqn:W.
  - destruct (Word_passes _ _ Hw) as [E W']. rewrite W'. subst t'.
    unfold Token_upper, Token_transform. cbn [cls token].
    rewrite str_upper_idem. unfold Word. now rewrite W'.
  - injection Hw as <-. now rewrite W.
Qed.

Lemma mapM_compose {A B C : Type} (f : A -> result B) (g : B -> result C)
    (h : A -> result C) :
  (forall x y, f x = OK y -> g y = h x) ->
  forall xs ys, mapM f xs = OK ys -> mapM g ys = mapM h xs.
Proof.
  intros Hf. induction xs as [|x xs IH]; simpl; intros ys H.
  - injection H as <-. reflexivity.
  - destruct (f x) as [y|] eqn:Fx; [|discriminate]. simpl in H.
    destruct (mapM f xs) as [zs|]; [|discriminate]. simpl in H.
    injection H as <-. simpl. rewrite (Hf _ _ Fx), (IH _ eq_refl). reflexivity.
Qed.

(** X5.  [upper] after [upper] is [upper]; and when one of [lower] and
    [upper] returns, the other applied to its result is the other applied
    to the Document itself: the last case folding wins. *)
Theorem case_folding_composes (d : Document) :
  (d' <- Document_upper d ;; Document_upper d') = Document_upper d /\
  (forall d', Document_lower d = OK d' ->
              Document_upper d' = Document_upper d) /\
  (forall d', Document_upper d = OK d' ->
              Document_lower d' = Document_lower d).
Proof.
  split; [|split].
  - destruct (Document_upper d) as [d'|e] eqn:H; [|reflexivity].
    simpl. revert H. apply (mapM_idem Paragraph_upper). intros p p'.
    apply (mapM_idem Sentence_upper). intros s s'.
    apply (mapM_idem upper_token), upper_after_upper.
  - intros d'. apply (mapM_compose Paragraph_lower). intros p p'.
    apply (mapM_compose Sentence_lower). intros s s'.
    apply (mapM_compose lower_token upper_token upper_token), upper_after_lower.
  - intros d'. apply (mapM_compose Paragraph_upper). intros p p'.
    apply (mapM_compose Sentence_upper). intros s s'.
    apply (mapM_compose upper_token lower_token lower_token), lower_after_upper.
Qed.

Lemma case_folding_composes_witness :
  Document_upper [[[mkToken CWord (py "ab"); mkToken CPunctuation (py ".")]]] =
  Document_upper [[[mkToken CWord (py "Ab"); mkToken CPunctuation (py ".")]]] /\
  Document_lower [[[mkToken CWord (py "AB"); mkToken CPunctuation (py ".")]]] =
  Document_lower [[[mkToken CWord (py "Ab"); mkToken CPunctuation (py ".")]]].
Proof.
  split.
  - apply (proj1 (proj2 (case_folding_composes
      [[[mkToken CWord (py "Ab"); mkToken CPunctuation (py ".")]]]))).
    vm_compute. reflexivity.
  - apply (proj2 (proj2 (case_folding_composes
      [[[mkToken CWord (py "Ab"); mkToken CPunctuation (py ".")]]]))).
    vm_compute. reflexivity.
Defined.

Lemma lower_token_folded t t' :
  lower_token t = OK t' -> folded str_lower t t'.
Proof.
  intros H. destruct (lower_token_Word _ _ H) as [Hc Hw]. unfold folded.
  destruct (Token_isword t).
  - destruct (Word_passes _ _ Hw) as [-> W']. auto.
  - now injection Hw as <-.
Qed.

Lemma upper_token_folded t t' :
  upper_token t = OK t' -> folded str_upper t t'.
Proof.
  intros H. destruct (upper_token_Word _ _ H) as [Hc Hw]. unfold folded.
  destruct (Token_isword t).
  - destruct (Word_passes _ _ Hw) as [-> W']. auto.
  - now injection Hw as <-.
Qed.

Lemma Document_lower_folded (d d' : Document) :
  Document_lower d = OK d' ->
  Forall2 (Forall2 (Forall2 (folded str_lower))) d d'.
Proof.
  apply (mapM_Forall2 Paragraph_lower). intros p p'.
  apply (mapM_Forall2 Sentence_lower). intros s s'.
  apply (mapM_Forall2 lower_token), lower_token_folded.
Qed.

Lemma Document_upper_folded (d d' : Document) :
  Document_upper d = OK d' ->
  Forall2 (Forall2 (Forall2 (folded str_upper))) d d'.
Proof.
  apply (mapM_Forall2 Paragraph_upper). intros p p'.
  apply (mapM_Forall2 Sentence_upper). intros s s'.
  apply (mapM_Forall2 upper_token), upper_token_folded.
Qed.

(** X6.  When [lower] or [upper] returns, the Document it returns has the
    paragraphs, sentences and tokens of the Document it was given, place by
    place; each token that passes [isword] is replaced by the [Word] of its
    folded text, which passes [isword] too, and every other token is left
    as it is. *)
Theorem case_folding_touches_words_only (d d' : Document) :
  (Document_lower d = OK d' ->
   Forall2 (Forall2 (Forall2 (folded str_lower))) d d') /\
  (Document_upper d = OK d' ->
   Forall2 (Forall2 (Forall2 (folded str_upper))) d d').
Proof.
  split; [apply Document_lower_folded | apply Document_upper_folded].
Qed.

Lemma case_folding_touches_words_only_witness :
  Forall2 (Forall2 (Forall2 (folded str_lower)))
    [[[mkToken CWord (py "Ab"); mkToken CNumber (py "1")]]]
    [[[mkToken CWord (py "ab"); mkToken CNumber (py "1")]]].
Proof.
  apply (proj1 (case_folding_touches_words_only _ _)).
  vm_compute. reflexivity.
Defined.

(** ** Case folding and rendering *)

Lemma not_word_fold c :
  isW c = false -> lower_char c = c /\ upper_char c = c.
Proof.
  rewrite isW_eq. intros H.
  assert (R : ~ (65 <= c <= 90)%N /\ ~ (97 <= c <= 122)%N).
  { split; intros [H1 H2]; apply N.leb_le in H1, H2; rewrite H1, H2 in H;
      cbn in H; try discriminate. now rewrite orb_true_r in H. }
  destruct R. split; [now apply lower_char_other | now apply upper_char_other].
Qed.

Lemma not_word_fold_all (p : char -> bool) (s : str) :
  (forall c, p c = true -> isW c = false) -> forallb p s = true ->
  str_lower s = s /\ str_upper s = s.
Proof.
  intros Hp H. rewrite forallb_forall in H. unfold str_lower, str_upper.
  split; rewrite <- (map_id s) at 2; apply map_ext_in; intros c Hc;
    apply not_word_fold, Hp, H, Hc.
Qed.

(** Folding a token of the classifier folds its text. *)
Lemma lexed_folded_text t t' :
  lexed t ->
  (folded str_lower t t' -> token t' = str_lower (token t)) /\
  (folded str_upper t t' -> token t' = str_upper (token t)).
Proof.
  intros (c & s & rest & L). unfold folded.
  destruct (Token_isword t) eqn:W.
  { split; intros (_ & -> & _); reflexivity. }
  assert (E : str_lower (token t) = token t /\ str_upper (token t) = token t).
  { unfold lex in L. unfold Token_isword in W.
    destruct (isW c) eqn:Hw.
    { inversion L; subst; clear L. cbn [token] in W.
      rewrite (fullmatch_word _ _ Hw (forallb_take_while _ _)) in W.
      discriminate. }
    destruct (isP c) eqn:Hp.
    { inversion L; subst; clear L. cbn [token].
      apply (not_word_fold_all (fun x => negb (isW x))).
      - intros x Hx. now apply negb_true_iff in Hx.
      - cbn [forallb]. now rewrite Hw. }
    destruct (isD c) eqn:Hd.
    { inversion L; subst; clear L. cbn [token].
      apply (not_word_fold_all isD); [apply digit_not_word|].
      cbn [forallb]. now rewrite Hd, forallb_take_while. }
    destruct (isS c) eqn:Hs; [|discriminate].
    inversion L; subst; clear L. cbn [token].
    apply (not_word_fold_all isS); [apply space_not_word|].
    cbn [forallb]. now rewrite Hs, forallb_take_while. }
  destruct E as [E1 E2]. split; intros ->; congruence.
Qed.

Lemma map_concat {A B : Type} (f : A -> B) (ls : list (list A)) :
  map f (concat ls) = concat (map (map f) ls).
Proof.
  induction ls as [|l ls IH]; [reflexivity|].
  simpl. now rewrite map_app, IH.
Qed.

Lemma map_join (f : char -> char) (sep : str) (parts : list str) :
  map f (join sep parts) = join (map f sep) (map (map f) parts).
Proof.
  induction parts as [|p ps IH]; [reflexivity|].
  destruct ps as [|q ps]; [reflexivity|].
  change (join sep (p :: q :: ps)) with (p ++ sep ++ join sep (q :: ps)).
  rewrite !map_app, IH. reflexivity.
Qed.

Section Rendering.
Variable f : char -> char.
Variable rel : Token -> Token -> Prop.
Hypothesis f_LF : f LF = LF.
Hypothesis rel_text :
  forall t t', lexed t -> rel t t' -> token t' = map f (token t).

Lemma Sentence_str_map (s s' : Sentence) :
  Forall lexed s -> Forall2 rel s s' ->
  Sentence_str s' = map f (Sentence_str s).
Proof.
  intros Hl H. unfold Sentence_str. rewrite map_concat, map_map. f_equal.
  induction H as [|t t' s s' Ht _ IH]; [reflexivity|].
  inversion Hl; subst. simpl. f_equal; [now apply rel_text | auto].
Qed.

Lemma Paragraph_str_map (p p' : Paragraph) :
  Forall (Forall lexed) p -> Forall2 (Forall2 rel) p p' ->
  Paragraph_str p' = map f (Paragraph_str p).
Proof.
  intros Hl H. unfold Paragraph_str. rewrite map_concat, map_map. f_equal.
  induction H as [|s s' p p' Hs _ IH]; [reflexivity|].
  inversion Hl; subst. simpl. f_equal; [now apply Sentence_str_map | auto].
Qed.

Lemma Document_str_map (d d' : Document) :
  Forall (Forall (Forall lexed)) d -> Forall2 (Forall2 (Forall2 rel)) d d' ->
  Document_str d' = map f (Document_str d).
Proof.
  intros Hl H. unfold Document_str. rewrite map_join, map_map. cbn [map].
  rewrite f_LF. f_equal.
  induction H as [|p p' d d' Hp _ IH]; [reflexivity|].
  inversion Hl; subst. simpl. f_equal; [now apply Paragraph_str_map | auto].
Qed.
End Rendering.

(** X7.  For a Document that the builder returned, from a string or from a
    stream, rendering the lowered Document gives the lowered rendering of
    the Document, and likewise for [upper]: the tokens that case folding
    leaves alone hold no letter. *)
Theorem render_of_case_folded (src : str) (from_stream : bool)
    (d d' : Document) :
  Document_init (if from_stream then FromStream src else FromStr src) = OK d ->
  (Document_lower d = OK d' -> Document_str d' = str_lower (Document_str d)) /\
  (Document_upper d = OK d' -> Document_str d' = str_upper (Document_str d)).
Proof.
  intros H. pose proof (built_lexed _ _ _ H) as W. split; intros F.
  - apply (Document_str_map lower_char (folded str_lower)); auto.
    + intros t t' Ht. apply (proj1 (lexed_folded_text t t' Ht)).
    + now apply Document_lower_folded.
  - apply (Document_str_map upper_char (folded str_upper)); auto.
    + intros t t' Ht. apply (proj2 (lexed_folded_text t t' Ht)).
    + now apply Document_upper_folded.
Qed.

Lemma render_of_case_folded_witness :
  Document_str
    [[[mkToken CWord (py "hi"); mkToken CPunctuation (py ".")]];
     [[mkToken CWord (py "yo"); mkToken CPunctuation (py "!")]]] =
  str_lower (Document_str
    [[[mkToken CWord (py "Hi"); mkToken CPunctuation (py ".")]];
     [[mkToken CWord (py "YO"); mkToken CPunctuation (py "!")]]]).
Proof.
  apply (proj1 (render_of_case_folded (py "Hi." ++ [LF] ++ py "YO! x") false
                  _ _ ltac:(vm_compute; reflexivity))).
  vm_compute. reflexivity.
Defined.

(** ** Filters, one after another *)

Lemma mapM_pure {A B : Type} (h : A -> B) xs :
  mapM (fun x => OK (h x)) xs = OK (map h xs).
Proof.
  induction xs as [|x xs IH]; simpl; [reflexivity|]. now rewrite IH.
Qed.

Lemma mapM_ext {A B : Type} (f g : A -> result B) xs :
  (forall x, f x = g x) -> mapM f xs = mapM g xs.
Proof.
  intros H. induction xs as [|x xs IH]; simpl; [reflexivity|].
  now rewrite H, IH.
Qed.

(** A filter with a test that does not raise returns, on every
    Document, the Document of the filtered sentences. *)
Lemma Document_pure_filter (g : Token -> bool) (d : Document) :
  Document_transform d
    (fun p => Paragraph_transform p
       (fun s => Sentence_filter s (fun token => OK (g token)))) =
  OK (map (map (filter g)) d).
Proof.
  unfold Document_transform, Paragraph_transform, Sentence_filter.
  rewrite <- mapM_pure. apply mapM_ext. intros p.
  rewrite <- mapM_pure. apply mapM_ext. intros s. apply filterM_pure.
Qed.

Lemma filter_comm {A : Type} (g1 g2 : A -> bool) xs :
  filter g1 (filter g2 xs) = filter g2 (filter g1 xs).
Proof.
  induction xs as [|x xs IH]; simpl; [reflexivity|].
  destruct (g1 x) eqn:G1, (g2 x) eqn:G2; simpl; rewrite ?G1, ?G2, IH;
    reflexivity.
Qed.

Lemma pure_filters_commute (g1 g2 : Token -> bool) (d : Document) :
  map (map (filter g1)) (map (map (filter g2)) d) =
  map (map (filter g2)) (map (map (filter g1)) d).
Proof.
  rewrite !map_map. apply map_ext. intros p.
  rewrite !map_map. apply map_ext. intros s. apply filter_comm.
Qed.

Lemma without_punct_eq d :
  Document_without_punct d = OK (map (map (filter keep_not_punct)) d).
Proof. apply (Document_pure_filter keep_not_punct). Qed.

Lemma without_whitespace_eq d :
  Document_without_whitespace d = OK (map (map (filter keep_not_whitespace)) d).
Proof. apply (Document_pure_filter keep_not_whitespace). Qed.

Lemma without_number_eq d :
  Document_without_number d = OK (map (map (filter keep_not_number)) d).
Proof. apply (Document_pure_filter keep_not_number). Qed.

Lemma without_eq d tokens :
  Document_without d tokens = OK (map (map (filter (keep_not_among tokens))) d).
Proof. apply (Document_pure_filter (keep_not_among tokens)). Qed.

(** X8.  The filters [without_punct], [without_whitespace],
    [without_number] and [without] commute: applied one after the other
    in either order, any two of them, and [without] with two lists of
    literals, return the same Document. *)
Theorem filters_commute (d : Document) (tokens tokens' : list str) :
  (x <- Document_without_punct d ;; Document_without_whitespace x) =
  (x <- Document_without_whitespace d ;; Document_without_punct x) /\
  (x <- Document_without_punct d ;; Document_without_number x) =
  (x <- Document_without_number d ;; Document_without_punct x) /\
  (x <- Document_without_punct d ;; Document_without x tokens) =
  (x <- Document_without d tokens ;; Document_without_punct x) /\
  (x <- Document_without_whitespace d ;; Document_without_number x) =
  (x <- Document_without_number d ;; Document_without_whitespace x) /\
  (x <- Document_without_whitespace d ;; Document_without x tokens) =
  (x <- Document_without d tokens ;; Document_without_whitespace x) /\
  (x <- Document_without_number d ;; Document_without x tokens) =
  (x <- Document_without d tokens ;; Document_without_number x) /\
  (x <- Document_without d tokens ;; Document_without x tokens') =
  (x <- Document_without d tokens' ;; Document_without x tokens).
Proof.
  repeat split;
    rewrite ?(without_punct_eq d), ?(without_whitespace_eq d),
      ?(without_number_eq d), ?(without_eq d); cbn [bind];
    rewrite ?without_punct_eq, ?without_whitespace_eq, ?without_number_eq,
      ?without_eq;
    f_equal; apply pure_filters_commute.
Qed.

Lemma filterM_idem {A : Type} (f : A -> result bool) xs ys :
  filterM f xs = OK ys -> filterM f ys = OK ys.
Proof.
  revert ys. induction xs as [|x xs IH]; simpl; intros ys H.
  - injection H as <-. reflexivity.
  - destruct (f x) as [b|] eqn:Fx; [|discriminate]. simpl in H.
    destruct (filterM f xs) as [zs|]; [|discriminate]. simpl in H.
    injection H as <-. destruct b; [|now apply IH].
    simpl. rewrite Fx. simpl. now rewrite (IH _ eq_refl).
Qed.

Lemma Document_filter_idem (f : Token -> result bool) (d : Document) :
  (x <- Document_transform d
          (fun p => Paragraph_transform p (fun s => Sentence_filter s f)) ;;
   Document_transform x
     (fun p => Paragraph_transform p (fun s => Sentence_filter s f))) =
  Document_transform d
    (fun p => Paragraph_transform p (fun s => Sentence_filter s f)).
Proof.
  destruct (Document_transform d _) as [d'|e] eqn:H; [|reflexivity].
  cbn [bind]. revert H.
  apply (mapM_idem (fun p => Paragraph_transform p (fun s => Sentence_filter s f))).
  intros p p'. apply (mapM_idem (fun s => Sentence_filter s f)).
  intros s s'. apply filterM_idem.
Qed.

(** X9.  Each filter is idempotent: [without_whitespace],
    [without_number], [without] and [without_punct_exceptend] applied to
    their own result return it unchanged (when [without_punct_exceptend]
    raises on the Document, so does the double application). *)
Theorem filters_idempotent (d : Document) (tokens : list str) :
  (x <- Document_without_whitespace d ;; Document_without_whitespace x) =
    Document_without_whitespace d /\
  (x <- Document_without_number d ;; Document_without_number x) =
    Document_without_number d /\
  (x <- Document_without d tokens ;; Document_without x tokens) =
    Document_without d tokens /\
  (x <- Document_without_punct_exceptend d ;;
   Document_without_punct_exceptend x) =
    Document_without_punct_exceptend d.
Proof.
  repeat split.
  - apply (Document_filter_idem (fun t => OK (keep_not_whitespace t))).
  - apply (Document_filter_idem (fun t => OK (keep_not_number t))).
  - apply (Document_filter_idem (fun t => OK (keep_not_among tokens t))).
  - apply (Document_filter_idem
             (fun t => if negb (Token_ispunct t) then OK true else Token_isend t)).
Qed.

(** ** Case folding and the filters *)

Lemma word_excludes t :
  Token_isword t = true ->
  Token_ispunct t = false /\ Token_isnumber t = false /\
  Token_iswhitespace t = false.
Proof.
  unfold Token_isword, Token_ispunct, Token_isnumber, Token_iswhitespace.
  destruct (kind_groups (token t)) as (-> & -> & -> & ->).
  destruct (token t) as [|c s]; [discriminate|].
  cbn [nonempty_all forallb number_form]. intros H.
  apply andb_true_iff in H. destruct H as [W F]. rewrite W.
  assert (D : isD c = false).
  { destruct (isD c) eqn:D; [|reflexivity].
    rewrite (digit_not_word _ D) in W. discriminate. }
  assert (S : isS c = false).
  { destruct (isS c) eqn:S; [|reflexivity].
    rewrite (space_not_word _ S) in W. discriminate. }
  rewrite D, S. repeat split. destruct s; [apply andb_false_r | reflexivity].
Qed.

(** The tests of the filters by kind give the same answer before and
    after case folding. *)
Lemma folded_kind (f : str -> str) (t t' : Token) :
  folded f t t' ->
  Token_ispunct t' = Token_ispunct t /\
  Token_isnumber t' = Token_isnumber t /\
  Token_iswhitespace t' = Token_iswhitespace t /\
  (if negb (Token_ispunct t') then OK true else Token_isend t') =
  (if negb (Token_ispunct t) then OK true else Token_isend t).
Proof.
  unfold folded. destruct (Token_isword t) eqn:W.
  - intros (_ & _ & W').
    destruct (word_excludes _ W) as (-> & -> & ->).
    destruct (word_excludes _ W') as (-> & -> & ->). auto.
  - intros ->. auto.
Qed.

Lemma filterM_rel {A : Type} (f : A -> result bool) (R : A -> A -> Prop) :
  (forall x y, R x y -> f y = f x) ->
  forall xs ys, Forall2 R xs ys ->
  rel_result (Forall2 R) (filterM f xs) (filterM f ys).
Proof.
  intros Hf xs ys H. induction H as [|x y xs ys Hxy _ IH]; simpl.
  - constructor.
  - rewrite (Hf _ _ Hxy). destruct (f x) as [b|e]; simpl; [|reflexivity].
    destruct (filterM f xs) as [zs|e1], (filterM f ys) as [ws|e2];
      simpl in *; try contradiction; try assumption.
    destruct b; [constructor|]; assumption.
Qed.

Lemma mapM_rel {A : Type} (F : A -> result A) (R R' : A -> A -> Prop) :
  (forall x y, R x y -> rel_result R' (F x) (F y)) ->
  forall xs ys, Forall2 R xs ys ->
  rel_result (Forall2 R') (mapM F xs) (mapM F ys).
Proof.
  intros HF xs ys H. induction H as [|x y xs ys Hxy _ IH]; simpl.
  - constructor.
  - specialize (HF _ _ Hxy).
    destruct (F x) as [u|e1], (F y) as [v|e2]; simpl in *;
      try contradiction; try assumption.
    destruct (mapM F xs) as [zs|e1], (mapM F ys) as [ws|e2];
      simpl in *; try contradiction; try assumption.
    constructor; assumption.
Qed.

Lemma Forall2_mapM {A B : Type} (h : A -> result B) (R : A -> B -> Prop) :
  (forall x y, R x y -> h x = OK y) ->
  forall xs ys, Forall2 R xs ys -> mapM h xs = OK ys.
Proof.
  intros Hh xs ys H. induction H as [|x y xs ys Hxy _ IH]; simpl;
    [reflexivity|].
  now rewrite (Hh _ _ Hxy), IH.
Qed.

Lemma folded_lower t t' : folded str_lower t t' -> lower_token t = OK t'.
Proof.
  unfold folded, lower_token, Token_lower, Token_transform, Word.
  destruct (Token_isword t).
  - intros (-> & -> & ->). reflexivity.
  - now intros ->.
Qed.

Lemma folded_upper t t' : folded str_upper t t' -> upper_token t = OK t'.
Proof.
  unfold folded, upper_token, Token_upper, Token_transform, Word.
  destruct (Token_isword t).
  - intros (-> & -> & ->). reflexivity.
  - now intros ->.
Qed.

Section FoldThenFilter.
Variable f : str -> str.
Variable test : Token -> result bool.
Hypothesis test_folded : forall t t', folded f t t' -> test t' = test t.

(** Filtering two Documents that are foldings of one another token by
    token: both raise the same exception, or the results are foldings of
    one another. *)
Lemma filter_folded (d d' : Document) :
  Forall2 (Forall2 (Forall2 (folded f))) d d' ->
  rel_result (Forall2 (Forall2 (Forall2 (folded f))))
    (Document_transform d
       (fun p => Paragraph_transform p (fun s => Sentence_filter s test)))
    (Document_transform d'
       (fun p => Paragraph_transform p (fun s => Sentence_filter s test))).
Proof.
  apply (mapM_rel _ (Forall2 (Forall2 (folded f)))). intros p p'.
  apply (mapM_rel _ (Forall2 (folded f))). intros s s'.
  apply filterM_rel. intros x y Hxy. now apply test_folded.
Qed.
End FoldThenFilter.

Lemma folded_Document_lower (d d' : Document) :
  Forall2 (Forall2 (Forall2 (folded str_lower))) d d' ->
  Document_lower d = OK d'.
Proof.
  apply (Forall2_mapM Paragraph_lower). intros p p'.
  apply (Forall2_mapM Sentence_lower). intros s s'.
  apply (Forall2_mapM lower_token), folded_lower.
Qed.

Lemma folded_Document_upper (d d' : Document) :
  Forall2 (Forall2 (Forall2 (folded str_upper))) d d' ->
  Document_upper d = OK d'.
Proof.
  apply (Forall2_mapM Paragraph_upper). intros p p'.
  apply (Forall2_mapM Sentence_upper). intros s s'.
  apply (Forall2_mapM upper_token), folded_upper.
Qed.

Lemma lower_then_filter (test : Token -> result bool) (d d' : Document) :
  (forall t t', folded str_lower t t' -> test t' = test t) ->
  Document_lower d = OK d' ->
  Document_transform d'
    (fun p => Paragraph_transform p (fun s => Sentence_filter s test)) =
  (x <- Document_transform d
          (fun p => Paragraph_transform p (fun s => Sentence_filter s test)) ;;
   Document_lower x).
Proof.
  intros Ht H. apply Document_lower_folded in H.
  pose proof (filter_folded str_lower test Ht d d' H) as R.
  destruct (Document_transform d _) as [x|e], (Document_transform d' _) as [x'|e'];
    simpl in *; try contradiction.
  - symmetry. now rewrite (folded_Document_lower _ _ R).
  - now subst.
Qed.

Lemma upper_then_filter (test : Token -> result bool) (d d' : Document) :
  (forall t t', folded str_upper t t' -> test t' = test t) ->
  Document_upper d = OK d' ->
  Document_transform d'
    (fun p => Paragraph_transform p (fun s => Sentence_filter s test)) =
  (x <- Document_transform d
          (fun p => Paragraph_transform p (fun s => Sentence_filter s test)) ;;
   Document_upper x).
Proof.
  intros Ht H. apply Document_upper_folded in H.
  pose proof (filter_folded str_upper test Ht d d' H) as R.
  destruct (Document_transform d _) as [x|e], (Document_transform d' _) as [x'|e'];
    simpl in *; try contradiction.
  - symmetry. now rewrite (folded_Document_upper _ _ R).
  - now subst.
Qed.

(** X10.  Case folding commutes with the four filters that test the kind
    of a token: when [lower] returns on a Document, filtering its result
    with [without_punct], [without_punct_exceptend], [without_whitespace]
    or [without_number] is the same as filtering the Document first and
    applying [lower] to what is left; likewise for [upper]. *)
Theorem case_folding_commutes_with_kind_filters (d d' : Document) :
  (Document_lower d = OK d' ->
   Document_without_punct d' =
     (x <- Document_without_punct d ;; Document_lower x) /\
   Document_without_punct_exceptend d' =
     (x <- Document_without_punct_exceptend d ;; Document_lower x) /\
   Document_without_whitespace d' =
     (x <- Document_without_whitespace d ;; Document_lower x) /\
   Document_without_number d' =
     (x <- Document_without_number d ;; Document_lower x)) /\
  (Document_upper d = OK d' ->
   Document_without_punct d' =
     (x <- Document_without_punct d ;; Document_upper x) /\
   Document_without_punct_exceptend d' =
     (x <- Document_without_punct_exceptend d ;; Document_upper x) /\
   Document_without_whitespace d' =
     (x <- Document_without_whitespace d ;; Document_upper x) /\
   Document_without_number d' =
     (x <- Document_without_number d ;; Document_upper x)).
Proof.
  split; intros H; repeat split.
  - apply (lower_then_filter (fun t => OK (negb (Token_ispunct t)))); auto.
    intros t t' F. now destruct (folded_kind _ _ _ F) as (-> & _).
  - apply (lower_then_filter
             (fun t => if negb (Token_ispunct t) then OK true else Token_isend t));
      auto.
    intros t t' F. now destruct (folded_kind _ _ _ F) as (_ & _ & _ & ->).
  - apply (lower_then_filter (fun t => OK (negb (Token_iswhitespace t)))); auto.
    intros t t' F. now destruct (folded_kind _ _ _ F) as (_ & _ & -> & _).
  - apply (lower_then_filter (fun t => OK (negb (Token_isnumber t)))); auto.
    intros t t' F. now destruct (folded_kind _ _ _ F) as (_ & -> & _).
  - apply (upper_then_filter (fun t => OK (negb (Token_ispunct t)))); auto.
    intros t t' F. now destruct (folded_kind _ _ _ F) as (-> & _).
  - apply (upper_then_filter
             (fun t => if negb (Token_ispunct t) then OK true else Token_isend t));
      auto.
    intros t t' F. now destruct (folded_kind _ _ _ F) as (_ & _ & _ & ->).
  - apply (upper_then_filter (fun t => OK (negb (Token_iswhitespace t)))); auto.
    intros t t' F. now destruct (folded_kind _ _ _ F) as (_ & _ & -> & _).
  - apply (upper_then_filter (fun t => OK (negb (Token_isnumber t)))); auto.
    intros t t' F. now destruct (folded_kind _ _ _ F) as (_ & -> & _).
Qed.

Lemma case_folding_commutes_with_kind_filters_witness :
  Document_without_punct
    [[[mkToken CWord (py "ab"); mkToken CPunctuation (py ".")]]] =
  (x <- Document_without_punct
          [[[mkToken CWord (py "Ab"); mkToken CPunctuation (py ".")]]] ;;
   Document_lower x).
Proof.
  apply (proj1 (case_folding_commutes_with_kind_filters
    [[[mkToken CWord (py "Ab"); mkToken CPunctuation (py ".")]]] _)).
  vm_compute. reflexivity.
Defined.

(** ** The command line *)

Lemma isW_upper c : isW c = true -> isW (upper_char c) = true.
Proof.
  intros H. destruct (N.leb_spec 97 c) as [L1|L1];
    [destruct (N.leb_spec c 122) as [L2|L2]|].
  - rewrite upper_char_lower by lia. rewrite isW_eq.
    assert (E1 : (65 <=? c - 32)%N = true) by (apply N.leb_le; lia).
    assert (E2 : (c - 32 <=? 90)%N = true) by (apply N.leb_le; lia).
    now rewrite E1, E2.
  - now rewrite upper_char_other by lia.
  - now rewrite upper_char_other by lia.
Qed.

(** The [Word] of a non-empty text of word characters is a token of the
    classifier. *)
Lemma word_lexed c s :
  isW c = true -> forallb isW s = true -> lexed (mkToken CWord (c :: s)).
Proof.
  intros W F. exists c, s, []. unfold lex.
  now rewrite W, (take_while_forallb _ _ F), (drop_while_forallb _ _ F).
Qed.

Lemma forallb_map (p : char -> bool) (f : char -> char) (s : str) :
  (forall c, p c = true -> p (f c) = true) ->
  forallb p s = true -> forallb p (map f s) = true.
Proof.
  intros Hf. induction s as [|c s IH]; [reflexivity|]. simpl.
  rewrite !andb_true_iff. intros [Hc Hs]. auto.
Qed.

(** A token of the classifier that passes [isword] is the [Word] of a
    non-empty text of word characters; one that fails it holds no word
    character at its head. *)
Lemma lexed_word t :
  lexed t -> Token_isword t = true ->
  exists c s, t = mkToken CWord (c :: s) /\ isW c = true /\
              forallb isW s = true.
Proof.
  intros (c & s & rest & L) W. unfold lex in L. unfold Token_isword in W.
  destruct (isW c) eqn:Hw.
  { inversion L; subst. exists c, (take_while isW s).
    auto using forallb_take_while. }
  destruct (isP c) eqn:Hp.
  { inversion L; subst. cbn [token] in W.
    rewrite (fullmatch_punct _ Hw Hp) in W. discriminate. }
  destruct (isD c) eqn:Hd.
  { inversion L; subst. cbn [token] in W.
    rewrite (fullmatch_digits _ _ Hd (forallb_take_while _ _)) in W.
    discriminate. }
  destruct (isS c) eqn:Hs; [|discriminate].
  inversion L; subst. cbn [token] in W.
  rewrite (fullmatch_space _ _ Hs (forallb_take_while _ _)) in W.
  discriminate.
Qed.

Lemma lexed_folded (f : char -> char) t t' :
  (forall c, isW c = true -> isW (f c) = true) ->
  lexed t -> folded (map f) t t' -> lexed t'.
Proof.
  intros Hf Hl. unfold folded. destruct (Token_isword t) eqn:W.
  - destruct (lexed_word _ Hl W) as (c & s & -> & Hc & Hs).
    intros (_ & -> & _). cbn [token map].
    apply word_lexed; [now apply Hf | now apply forallb_map].
  - now intros ->.
Qed.

Lemma lexed_upper t : lexed t -> exists t', upper_token t = OK t'.
Proof.
  intros Hl. unfold upper_token. destruct (Token_isword t) eqn:W; [|eauto].
  destruct (lexed_word _ Hl W) as (c & s & -> & Hc & Hs).
  unfold Token_upper, Token_transform, Word, Token_isword.
  cbn [cls token str_upper map].
  rewrite (fullmatch_word _ _ (isW_upper _ Hc)
             (forallb_map isW upper_char s isW_upper Hs)).
  cbn. eauto.
Qed.

Lemma Forall2_Forall_r {A : Type} (R : A -> A -> Prop) (P : A -> Prop) xs ys :
  (forall x y, P x -> R x y -> P y) ->
  Forall P xs -> Forall2 R xs ys -> Forall P ys.
Proof.
  intros HR HP H. induction H as [|x y xs ys Hxy _ IH]; [constructor|].
  inversion HP; subst. constructor; eauto.
Qed.

Lemma folded_Document_lexed (f : char -> char) (d d' : Document) :
  (forall c, isW c = true -> isW (f c) = true) ->
  Forall (Forall (Forall lexed)) d ->
  Forall2 (Forall2 (Forall2 (folded (map f)))) d d' ->
  Forall (Forall (Forall lexed)) d'.
Proof.
  intros Hf. apply Forall2_Forall_r. intros p p'.
  apply Forall2_Forall_r. intros s s'.
  apply Forall2_Forall_r. intros t t'. now apply lexed_folded.
Qed.

Lemma Forall_filter {A : Type} (P : A -> Prop) (g : A -> bool) xs :
  Forall P xs -> Forall P (filter g xs).
Proof.
  intros H. induction H as [|x xs Hx _ IH]; simpl; [constructor|].
  destruct (g x); [constructor|]; assumption.
Qed.

Lemma Forall_map {A B : Type} (P : A -> Prop) (Q : B -> Prop) (h : A -> B) xs :
  (forall x, P x -> Q (h x)) -> Forall P xs -> Forall Q (map h xs).
Proof.
  intros Hh H. induction H; simpl; constructor; auto.
Qed.

Lemma opt_filter_Forall (P : Token -> Prop) flag g (d : Document) :
  Forall (Forall (Forall P)) d ->
  Forall (Forall (Forall P)) (opt_filter flag g d).
Proof.
  unfold opt_filter. destruct flag; [|auto].
  apply Forall_map. intros p. apply Forall_map. intros s. apply Forall_filter.
Qed.

Lemma filter_Forall2 {A : Type} (R : A -> A -> Prop) (g : A -> bool) xs ys :
  (forall x y, R x y -> g y = g x) ->
  Forall2 R xs ys -> Forall2 R (filter g xs) (filter g ys).
Proof.
  intros Hg H. induction H as [|x y xs ys Hxy _ IH]; simpl; [constructor|].
  rewrite (Hg _ _ Hxy). destruct (g x); [constructor|]; assumption.
Qed.

Lemma Forall2_map {A B : Type} (R : A -> A -> Prop) (R' : B -> B -> Prop)
    (h : A -> B) xs ys :
  (forall x y, R x y -> R' (h x) (h y)) ->
  Forall2 R xs ys -> Forall2 R' (map h xs) (map h ys).
Proof.
  intros Hh H. induction H; simpl; constructor; auto.
Qed.

Lemma opt_filter_Forall2 (R : Token -> Token -> Prop) flag g (d d' : Document) :
  (forall x y, R x y -> g y = g x) ->
  Forall2 (Forall2 (Forall2 R)) d d' ->
  Forall2 (Forall2 (Forall2 R)) (opt_filter flag g d) (opt_filter flag g d').
Proof.
  intros Hg. unfold opt_filter. destruct flag; [|auto].
  apply Forall2_map. intros p p'. apply Forall2_map. intros s s'.
  now apply filter_Forall2.
Qed.

(** The script after the Document is built and case folding is done. *)
Lemma main_filters (args : Args.t) (doc : Document) :
  (doc <- (if Args.without_punct args
           then Document_without_punct doc else OK doc) ;;
   doc <- (if Args.without_whitespace args
           then Document_without_whitespace doc else OK doc) ;;
   doc <- (if Args.without_number args
           then Document_without_number doc else OK doc) ;;
   doc <- (match Args.without args with
           | Some ((_ :: _) as tokens) => Document_without doc tokens
           | _ => OK doc
           end) ;;
   OK (Document_str doc ++ [LF])) =
  OK (Document_str
        (opt_filter true (keep_not_among (literals (Args.without args)))
           (opt_filter (Args.without_number args) keep_not_number
              (opt_filter (Args.without_whitespace args) keep_not_whitespace
                 (opt_filter (Args.without_punct args) keep_not_punct doc))))
      ++ [LF]).
Proof.
  assert (E : forall (x : Document), map (map (filter (keep_not_among []))) x = x).
  { intros x. rewrite <- (map_id x) at 2. apply map_ext. intros p.
    rewrite <- (map_id p) at 2. apply map_ext. intros s.
    induction s as [|t s IH]; [reflexivity|]. simpl. now rewrite IH. }
  destruct args as [l u p w n wo]. cbn [Args.without_punct
    Args.without_whitespace Args.without_number Args.without].
  destruct p, w, n, wo as [[|tok toks]|]; cbn [opt_filter literals];
    repeat (progress (rewrite ?without_punct_eq, ?without_whitespace_eq,
                        ?without_number_eq, ?without_eq; cbn [bind]));
    rewrite ?E; reflexivity.
Qed.

Lemma built_case_folds (source : str) (d : Document) :
  Document_init (FromStream source) = OK d ->
  Forall (Forall (Forall lexed)) d /\
  (exists d', Document_lower d = OK d' /\
              Forall2 (Forall2 (Forall2 (folded str_lower))) d d' /\
              Forall (Forall (Forall lexed)) d') /\
  (exists d', Document_upper d = OK d' /\
              Forall2 (Forall2 (Forall2 (folded str_upper))) d d' /\
              Forall (Forall (Forall lexed)) d').
Proof.
  intros H. pose proof (built_lexed source true d H) as W.
  split; [exact W|]. split.
  - destruct (mapM_total_on Paragraph_lower (Forall (Forall lexed)) d) as [d' E];
      [|exact W|].
    + intros p Hp.
      apply (mapM_total_on Sentence_lower (Forall lexed)); [|exact Hp].
      intros s Hs. apply (mapM_total_on lower_token lexed); [|exact Hs].
      apply lexed_lower.
    + exists d'. pose proof (Document_lower_folded _ _ E) as F.
      split; [exact E|]. split; [exact F|].
      apply (folded_Document_lexed lower_char d d' isW_lower W F).
  - destruct (mapM_total_on Paragraph_upper (Forall (Forall lexed)) d) as [d' E];
      [|exact W|].
    + intros p Hp.
      apply (mapM_total_on Sentence_upper (Forall lexed)); [|exact Hp].
      intros s Hs. apply (mapM_total_on upper_token lexed); [|exact Hs].
      apply lexed_upper.
    + exists d'. pose proof (Document_upper_folded _ _ E) as F.
      split; [exact E|]. split; [exact F|].
      apply (folded_Document_lexed upper_char d d' isW_upper W F).
Qed.

(** X11.  The script fails only when the Document cannot be built, and
    then with the exception of the builder: whatever the options, when the
    text of the source is classified without error the script writes an
    output. *)
Theorem main_fails_only_in_the_builder (args : Args.t) (source : str) :
  match Document_init (FromStream source) with
  | Raise e => main args source = Raise e
  | OK _ => exists out, main args source = OK out
  end.
Proof.
  unfold main. destruct (Document_init (FromStream source)) as [d|e] eqn:H;
    [|reflexivity].
  cbn [bind].
  destruct (built_case_folds _ _ H) as (_ & (dl & El & _) & (du & Eu & _)).
  destruct (Args.lower args); [rewrite El | destruct (Args.upper args);
    [rewrite Eu|]]; cbn [bind]; rewrite main_filters; eauto.
Qed.

Lemma main_output (args : Args.t) (source : str) (d : Document) :
  Document_init (FromStream source) = OK d ->
  main args source =
  (doc <- (if Args.lower args then Document_lower d
           else if Args.upper args then Document_upper d else OK d) ;;
   OK (output args doc)).
Proof.
  intros H. unfold main. rewrite H. cbn [bind].
  destruct (if Args.lower args then Document_lower d
            else if Args.upper args then Document_upper d else OK d);
    cbn [bind]; [apply main_filters | reflexivity].
Qed.

(** X12.  Without the option for literal tokens, the flag for lower case
    only lowers the output: the script with it writes the lowered output of
    the script without any case flag, and fails when that one fails.  The
    same holds for the flag for upper case when the flag for lower case is
    not set. *)
Theorem main_case_flag_folds_the_output (p w n : bool) (source : str) :
  (forall u,
     main (Args.make true u p w n None) source =
     (out <- main (Args.make false false p w n None) source ;;
      OK (str_lower out))) /\
  main (Args.make false true p w n None) source =
  (out <- main (Args.make false false p w n None) source ;;
   OK (str_upper out)).
Proof.
  destruct (Document_init (FromStream source)) as [d|e] eqn:H.
  2:{ unfold main. rewrite H. split; [intros u|]; reflexivity. }
  destruct (built_case_folds _ _ H) as (W & (dl & El & Fl & _) & (du & Eu & Fu & _)).
  assert (G : forall (f : char -> char) (d' : Document),
    f LF = LF ->
    (forall t t', lexed t -> folded (map f) t t' -> token t' = map f (token t)) ->
    Forall2 (Forall2 (Forall2 (folded (map f)))) d d' ->
    output (Args.make false false p w n None) d' =
    map f (output (Args.make false false p w n None) d)).
  { intros f d' HLF Htext F. unfold output. cbn [Args.without Args.without_number
      Args.without_whitespace Args.without_punct literals].
    rewrite map_app. cbn [map]. rewrite HLF. f_equal.
    apply (Document_str_map f (folded (map f)) HLF Htext).
    - repeat apply opt_filter_Forall. exact W.
    - apply opt_filter_Forall2; [reflexivity|].
      apply opt_filter_Forall2;
        [intros t t' K; unfold keep_not_number;
         now destruct (folded_kind _ _ _ K) as (_ & -> & _)|].
      apply opt_filter_Forall2;
        [intros t t' K; unfold keep_not_whitespace;
         now destruct (folded_kind _ _ _ K) as (_ & _ & -> & _)|].
      apply opt_filter_Forall2;
        [intros t t' K; unfold keep_not_punct;
         now destruct (folded_kind _ _ _ K) as (-> & _)|].
      exact F. }
  split; [intros u|]; rewrite !(main_output _ _ _ H);
    cbn [Args.lower Args.upper bind]; rewrite ?El, ?Eu; cbn [bind]; f_equal.
  - apply (G lower_char dl); [reflexivity| |exact Fl].
    intros t t' Ht. apply (proj1 (lexed_folded_text t t' Ht)).
  - apply (G upper_char du); [reflexivity| |exact Fu].
    intros t t' Ht. apply (proj2 (lexed_folded_text t t' Ht)).
Qed.

(** A token of the classifier that is neither punctuation nor white space
    nor a number consists of word characters. *)
Lemma lexed_only_word t :
  lexed t ->
  keep_not_punct t = true -> keep_not_whitespace t = true ->
  keep_not_number t = true ->
  forallb isW (token t) = true.
Proof.
  intros (c & s & rest & L).
  unfold keep_not_punct, keep_not_whitespace, keep_not_number, Token_ispunct,
    Token_iswhitespace, Token_isnumber. unfold lex in L.
  destruct (isW c) eqn:Hw.
  { inversion L; subst. intros _ _ _. cbn [token forallb].
    now rewrite Hw, forallb_take_while. }
  destruct (isP c) eqn:Hp.
  { inversion L; subst. cbn [token].
    rewrite (fullmatch_punct _ Hw Hp). discriminate. }
  destruct (isD c) eqn:Hd.
  { inversion L; subst. cbn [token].
    rewrite (fullmatch_digits _ _ Hd (forallb_take_while _ _)).
    intros _ _ H. discriminate H. }
  destruct (isS c) eqn:Hs; [|discriminate].
  inversion L; subst. cbn [token].
  rewrite (fullmatch_space _ _ Hs (forallb_take_while _ _)).
  intros _ H. discriminate H.
Qed.

Lemma Forall_filter_and {A : Type} (P Q : A -> Prop) (g : A -> bool) xs :
  (forall x, g x = true -> Q x) ->
  Forall P xs -> Forall (fun x => P x /\ Q x) (filter g xs).
Proof.
  intros Hg H. induction H as [|x xs Hx _ IH]; simpl; [constructor|].
  destruct (g x) eqn:G; [constructor; auto|assumption].
Qed.

Lemma forallb_concat (p : char -> bool) (ls : list str) :
  Forall (fun l => forallb p l = true) ls -> forallb p (concat ls) = true.
Proof.
  intros H. induction H as [|l ls Hl _ IH]; [reflexivity|].
  simpl. now rewrite forallb_app, Hl, IH.
Qed.

Lemma forallb_join (p : char -> bool) (sep : str) (parts : list str) :
  forallb p sep = true ->
  Forall (fun l => forallb p l = true) parts ->
  forallb p (join sep parts) = true.
Proof.
  intros Hs H. induction H as [|l ls Hl Hls IH]; [reflexivity|].
  destruct ls as [|m ls]; [exact Hl|].
  change (join sep (l :: m :: ls)) with (l ++ sep ++ join sep (m :: ls)).
  now rewrite !forallb_app, Hl, Hs, IH.
Qed.

Lemma words_render (d : Document) :
  Forall (Forall (Forall (fun t => forallb isW (token t) = true))) d ->
  forallb word_or_LF (Document_str d ++ [LF]) = true.
Proof.
  intros H. rewrite forallb_app. apply andb_true_iff. split; [|reflexivity].
  unfold Document_str. apply forallb_join; [reflexivity|].
  apply Forall_map with (P := Forall (Forall (fun t => forallb isW (token t) = true)));
    [|exact H].
  intros p Hp. unfold Paragraph_str. apply forallb_concat.
  apply Forall_map with (P := Forall (fun t => forallb isW (token t) = true));
    [|exact Hp].
  intros s Hs. unfold Sentence_str. apply forallb_concat.
  apply Forall_map with (P := fun t => forallb isW (token t) = true);
    [|exact Hs].
  intros t Ht. apply (forallb_impl isW); [|exact Ht].
  intros x Hx. unfold word_or_LF. fold (isW x). now rewrite Hx.
Qed.

Lemma Forall3_impl (P Q : Token -> Prop) (d : Document) :
  (forall t, P t -> Q t) ->
  Forall (Forall (Forall P)) d -> Forall (Forall (Forall Q)) d.
Proof.
  intros H. apply Forall_impl. intros p. apply Forall_impl. intros s.
  now apply Forall_impl.
Qed.

Lemma filter3_and (P Q : Token -> Prop) (g : Token -> bool) (d : Document) :
  (forall t, g t = true -> Q t) ->
  Forall (Forall (Forall P)) d ->
  Forall (Forall (Forall (fun t => P t /\ Q t))) (map (map (filter g)) d).
Proof.
  intros Hg. apply Forall_map. intros p. apply Forall_map. intros s.
  now apply Forall_filter_and.
Qed.

(** X13.  With the three flags that remove punctuation, white space and
    numbers, whatever the other options, the output of the script holds
    nothing but letters, hyphens and line feeds. *)
Theorem main_keeps_words_only (l u : bool) (without : option (list str))
    (source out : str) :
  main (Args.make l u true true true without) source = OK out ->
  forallb word_or_LF out = true.
Proof.
  destruct (Document_init (FromStream source)) as [d|e] eqn:H.
  2:{ unfold main. rewrite H. discriminate. }
  rewrite (main_output _ _ _ H). cbn [Args.lower Args.upper].
  destruct (built_case_folds _ _ H) as (W & (dl & El & _ & Wl) & (du & Eu & _ & Wu)).
  assert (G : forall doc, Forall (Forall (Forall lexed)) doc ->
    forallb word_or_LF (output (Args.make l u true true true without) doc) = true).
  { intros doc Hd. unfold output. cbn [Args.without Args.without_number
      Args.without_whitespace Args.without_punct opt_filter].
    apply words_render. apply opt_filter_Forall with (flag := true).
    pose proof (filter3_and lexed (fun t => keep_not_punct t = true)
                  keep_not_punct doc (fun t K => K) Hd) as F1.
    pose proof (filter3_and _ (fun t => keep_not_whitespace t = true)
                  keep_not_whitespace _ (fun t K => K) F1) as F2.
    pose proof (filter3_and _ (fun t => keep_not_number t = true)
                  keep_not_number _ (fun t K => K) F2) as F3.
    revert F3. apply Forall3_impl. intros t [[[Ht Kp] Kw] Kn].
    now apply lexed_only_word. }
  destruct l; [rewrite El | destruct u; [rewrite Eu|]]; cbn [bind];
    intros E; injection E as <-; now apply G.
Qed.

Lemma main_keeps_words_only_witness :
  forallb word_or_LF (py "abc" ++ [LF; LF; LF]) = true.
Proof.
  apply (main_keeps_words_only true false (Some [py "b"])
           (py "Ab, b 12 C." ++ [LF] ++ py "x y")).
  vm_compute. reflexivity.
Defined.

(** ** [readall] *)

Lemma built_paragraph_str (lines : list str) (d : Document) :
  mapM Document__paragraph lines = OK d ->
  map Paragraph_str d = map upto_last_end lines.
Proof.
  apply (mapM_ok_map Document__paragraph).
  intros line p Hp. rewrite paragraph_run in Hp.
  rewrite (run_render _ _ _ _ Hp). simpl.
  destruct (upto_last_end line); reflexivity.
Qed.

Lemma flat_map_concat {A B : Type} (g : A -> list (list B)) (h : A -> list B) xs :
  (forall x, concat (g x) = h x) ->
  concat (flat_map g xs) = concat (map h xs).
Proof.
  intros H. induction xs as [|x xs IH]; [reflexivity|].
  simpl. now rewrite concat_app, H, IH.
Qed.

Lemma readall_concat (d : Document) :
  concat (Document_readall d) = concat (map Paragraph_str d).
Proof.
  unfold Document_readall. apply flat_map_concat. intros p.
  unfold Paragraph_str. apply flat_map_concat. intros s. reflexivity.
Qed.

Lemma lexed_not_empty t : lexed t -> token t <> [].
Proof.
  intros (c & s & rest & L). pose proof (lex_prefix _ _ _ _ L) as (_ & _ & H & _).
  unfold Token_len in H. destruct (token t); [simpl in H; lia | discriminate].
Qed.

(** X14.  For a Document built from a string or a stream, [readall] yields
    non-empty strings only, and the strings it yields, one after the other,
    spell the lines of the source, each cut after its last end
    character. *)
Theorem readall_of_built_document (text : str) (d : Document) :
  (Document_init (FromStr text) = OK d ->
   concat (Document_readall d) = concat (map upto_last_end (splitlines text)) /\
   Forall (fun s => s <> []) (Document_readall d)) /\
  (Document_init (FromStream text) = OK d ->
   concat (Document_readall d) = concat (map upto_last_end (readlines text)) /\
   Forall (fun s => s <> []) (Document_readall d)).
Proof.
  assert (G : forall b : bool,
    Document_init (if b then FromStream text else FromStr text) = OK d ->
    Forall (fun s => s <> []) (Document_readall d)).
  { intros b H. pose proof (built_lexed _ _ _ H) as W.
    unfold Document_readall. apply Forall_flat_map.
    revert W. apply Forall_impl. intros p Hp. apply Forall_flat_map.
    revert Hp. apply Forall_impl. intros s Hs.
    apply Forall_map with (P := lexed); [|exact Hs]. apply lexed_not_empty. }
  split; intros H.
  - split; [|exact (G false H)].
    rewrite readall_concat. f_equal. now apply built_paragraph_str.
  - split; [|exact (G true H)].
    rewrite readall_concat. f_equal. now apply built_paragraph_str.
Qed.

Lemma readall_of_built_document_witness :
  concat (Document_readall
    [[[mkToken CWord (py "Hi"); mkToken CPunctuation (py ".")]]; []]) =
  py "Hi.".
Proof.
  apply (proj1 (proj1 (readall_of_built_document
                  (py "Hi. x" ++ [LF] ++ py "y") _) ltac:(vm_compute; reflexivity))).
Defined.

(** ** The script without options *)

(** X20.  Without options the script writes the lines of the source, each
    cut after its last end character, with an empty line between them, and
    a final line feed. *)
Theorem main_without_options (source out : str) :
  main (Args.make false false false false false None) source = OK out ->
  out = join [LF; LF] (map upto_last_end (readlines source)) ++ [LF].
Proof.
  destruct (Document_init (FromStream source)) as [d|e] eqn:H.
  2:{ unfold main. rewrite H. discriminate. }
  rewrite (main_output _ _ _ H). cbn [Args.lower Args.upper bind].
  intros E. injection E as <-. unfold output.
  cbn [Args.without Args.without_number Args.without_whitespace
       Args.without_punct literals opt_filter].
  f_equal. unfold Document_str.
  replace (map (map (filter (keep_not_among []))) d) with d.
  - f_equal. now apply built_paragraph_str.
  - rewrite <- (map_id d) at 1. apply map_ext. intros p.
    rewrite <- (map_id p) at 1. apply map_ext. intros s.
    induction s as [|t s IH]; [reflexivity|]. simpl. now rewrite <- IH.
Qed.

Lemma main_without_options_witness :
  py "Hi." ++ [LF; LF] ++ py "Go on!" ++ [LF] =
  join [LF; LF]
    (map upto_last_end (readlines (py "Hi. you" ++ [LF] ++ py "Go on! now")))
  ++ [LF].
Proof.
  apply (main_without_options (py "Hi. you" ++ [LF] ++ py "Go on! now")).
  vm_compute. reflexivity.
Defined.

(** * Properties of individual.py *)

Lemma slice_index_map {A B : Type} (f : A -> B) (l : list A) (n : Z) :
  slice_index (map f l) n = slice_index l n.
Proof. unfold slice_index. now rewrite length_map. Qed.

Lemma slice_to_map {A B : Type} (f : A -> B) (l : list A) (n : Z) :
  slice_to (map f l) n = map f (slice_to l n).
Proof. unfold slice_to. now rewrite slice_index_map, firstn_map. Qed.

Lemma slice_from_map {A B : Type} (f : A -> B) (l : list A) (n : Z) :
  slice_from (map f l) n = map f (slice_from l n).
Proof. unfold slice_from. now rewrite slice_index_map, skipn_map. Qed.

Lemma map_negb_involutive (l : list bool) : map negb (map negb l) = l.
Proof.
  rewrite map_map. rewrite <- (map_id l) at 2. apply map_ext, negb_involutive.
Qed.

Lemma Individual_item_nth (x : Individual) (index : Z) :
  Individual_item x index =
  let n := Z.of_nat (length (chromosome x)) in
  if ((index <? - n) || (n <=? index))%Z then None
  else nth_error (chromosome x)
         (Z.to_nat (if (index <? 0)%Z then n + index else index)).
Proof. reflexivity. Qed.

(** X15.  [mutate] flips every gene and keeps the length of the
    chromosome: applied twice it gives an individual with the chromosome it
    started from (an individual is its chromosome here), and a gene read
    with [__item__] from the mutated individual is the negation of the gene
    read at the same index from the individual, with an error at the same
    indices. *)
Theorem mutate_involution (x : Individual) :
  Individual_mutate (Individual_mutate x) = x /\
  length (chromosome (Individual_mutate x)) = length (chromosome x) /\
  (forall index,
     Individual_item (Individual_mutate x) index =
     option_map negb (Individual_item x index)).
Proof.
  destruct x as [c]. unfold Individual_mutate. cbn [Individual_init chromosome].
  split; [now rewrite map_negb_involutive|].
  split; [apply length_map|].
  intros index. rewrite !Individual_item_nth. cbn [chromosome].
  rewrite length_map.
  destruct ((index <? - Z.of_nat (length c))
            || (Z.of_nat (length c) <=? index))%Z; [reflexivity|].
  apply nth_error_map.
Qed.

(** X16.  [mutate] commutes with [crossover]: crossing the mutated parents
    at a point gives the mutated children of the parents crossed at that
    point, and raises when crossing the parents raises. *)
Theorem crossover_of_mutated (message : str) (self other : Individual)
    (draw : Z) :
  Individual_crossover message (Individual_mutate self)
    (Individual_mutate other) draw =
  match Individual_crossover message self other draw with
  | OK (first, second) => OK (Individual_mutate first, Individual_mutate second)
  | Raise e => Raise e
  end.
Proof.
  destruct self as [a], other as [b].
  unfold Individual_crossover, Individual_mutate, randint.
  cbn [Individual_init chromosome]. rewrite length_map.
  destruct (Z.of_nat (length a) - 1 <? 1)%Z; [reflexivity|].
  cbn [bind chromosome].
  now rewrite !slice_to_map, !slice_from_map, !map_app.
Qed.

Lemma nth_cross {A : Type} (a b : list A) (p i : nat) (x : A) :
  p <= length a ->
  nth i (firstn p a ++ skipn p b) x = if i <? p then nth i a x else nth i b x.
Proof.
  intros Hp. destruct (Nat.ltb_spec i p) as [L|L].
  - rewrite app_nth1 by (rewrite length_firstn; lia).
    rewrite nth_firstn. destruct (Nat.ltb_spec i p); [reflexivity | lia].
  - rewrite app_nth2 by (rewrite length_firstn; lia).
    rewrite length_firstn, nth_skipn. f_equal. lia.
Qed.

(** X17.  For parents with chromosomes of one length, of two genes at
    least, and a point drawn in the range that [crossover] asks for, the
    two children have that length too; before the point the first child
    has the genes of the first parent and the second child those of the
    second parent, and from the point on the other way round. *)
Theorem crossover_of_equal_length (message : str) (self other : Individual)
    (draw : Z) :
  length (chromosome other) = length (chromosome self) ->
  (1 <= draw <= Z.of_nat (length (chromosome self)) - 1)%Z ->
  exists first second,
    Individual_crossover message self other draw = OK (first, second) /\
    length (chromosome first) = length (chromosome self) /\
    length (chromosome second) = length (chromosome self) /\
    forall i x,
      nth i (chromosome first) x =
        (if i <? Z.to_nat draw then nth i (chromosome self) x
         else nth i (chromosome other) x) /\
      nth i (chromosome second) x =
        (if i <? Z.to_nat draw then nth i (chromosome other) x
         else nth i (chromosome self) x).
Proof.
  destruct self as [a], other as [b]. cbn [chromosome]. intros Hlen Hd.
  assert (E1 : (Z.of_nat (length a) - 1 <? 1)%Z = false)
    by (apply Z.ltb_ge; lia).
  assert (E2 : (draw <? 0)%Z = false) by (apply Z.ltb_ge; lia).
  unfold Individual_crossover, randint. cbn [chromosome]. rewrite E1.
  cbn [bind chromosome Individual_init]. unfold slice_to, slice_from, slice_index.
  rewrite E2.
  eexists _, _. split; [reflexivity|]. cbn [chromosome].
  rewrite !length_app, !length_firstn, !length_skipn.
  split; [lia|]. split; [lia|].
  intros i x. split; apply nth_cross; lia.
Qed.

Lemma crossover_of_equal_length_witness :
  exists first second,
    Individual_crossover [] (mkIndividual [true; true; true])
      (mkIndividual [false; false; false]) 1 = OK (first, second) /\
    length (chromosome first) = 3 /\ length (chromosome second) = 3 /\
    forall i x,
      nth i (chromosome first) x =
        (if i <? 1 then nth i [true; true; true] x
         else nth i [false; false; false] x) /\
      nth i (chromosome second) x =
        (if i <? 1 then nth i [false; false; false] x
         else nth i [true; true; true] x).
Proof.
  apply (crossover_of_equal_length [] (mkIndividual [true; true; true])
           (mkIndividual [false; false; false]) 1); [reflexivity|].
  cbn. lia.
Defined.

(** X18.  For such parents and such a point, crossing the two children at
    the same point gives two individuals with the chromosomes of the
    parents. *)
Theorem crossover_twice (message : str) (self other first second : Individual)
    (draw : Z) :
  length (chromosome other) = length (chromosome self) ->
  (1 <= draw <= Z.of_nat (length (chromosome self)) - 1)%Z ->
  Individual_crossover message self other draw = OK (first, second) ->
  Individual_crossover message first second draw = OK (self, other).
Proof.
  destruct self as [a], other as [b]. cbn [chromosome]. intros Hlen Hd.
  assert (E1 : (Z.of_nat (length a) - 1 <? 1)%Z = false)
    by (apply Z.ltb_ge; lia).
  assert (E2 : (draw <? 0)%Z = false) by (apply Z.ltb_ge; lia).
  unfold Individual_crossover at 1. unfold randint. cbn [chromosome].
  rewrite E1.
  cbn [bind chromosome Individual_init]. intros H. injection H as <- <-.
  unfold Individual_crossover, randint. cbn [chromosome].
  unfold slice_to, slice_from, slice_index. rewrite E2.
  rewrite !length_app, !length_firstn, !length_skipn.
  assert (E3 : (Z.of_nat (Init.Nat.min (Z.to_nat draw) (length a)
                 + (length b - Z.to_nat draw)) - 1 <? 1)%Z = false)
    by (apply Z.ltb_ge; lia).
  rewrite E3. cbn [bind Individual_init]. rewrite !E2.
  set (p := Z.to_nat draw).
  assert (Hp : p <= length a /\ p <= length b) by (subst p; lia).
  assert (Pa : length (firstn p a) = p) by (rewrite length_firstn; lia).
  assert (Pb : length (firstn p b) = p) by (rewrite length_firstn; lia).
  assert (F : forall (u v : list bool),
    length (firstn p u) = p ->
    firstn p (firstn p u ++ skipn p v) = firstn p u /\
    skipn p (firstn p u ++ skipn p v) = skipn p v).
  { intros u v Hu. split.
    - rewrite firstn_app, Hu, Nat.sub_diag, firstn_firstn, Nat.min_id.
      cbn [firstn]. apply app_nil_r.
    - rewrite skipn_app, Hu, Nat.sub_diag. cbn [skipn].
      rewrite <- Hu at 1. now rewrite skipn_all. }
  destruct (F a b Pa) as [-> ->]. destruct (F b a Pb) as [-> ->].
  now rewrite !firstn_skipn.
Qed.

Lemma crossover_twice_witness :
  Individual_crossover []
    (mkIndividual [true; false; false]) (mkIndividual [false; true; true]) 1 =
  OK (mkIndividual [true; true; true], mkIndividual [false; false; false]).
Proof.
  apply (crossover_twice [] (mkIndividual [true; true; true])
           (mkIndividual [false; false; false])
           (mkIndividual [true; false; false])
           (mkIndividual [false; true; true]) 1);
    [reflexivity | cbn; lia | reflexivity].
Defined.

(** X19.  [crossover] raises when the chromosome of the individual has
    fewer than two genes, whatever the other parent is: the range of the
    crossover point is then empty.  Otherwise, for a point drawn in the
    range, it returns two children; the first has as many genes as the
    point says plus what the other parent has beyond the point, the second
    the genes of the other parent up to the point plus what the individual
    has beyond it, so a shorter or longer other parent changes the
    lengths. *)
Theorem crossover_lengths (message : str) (self other : Individual)
    (draw : Z) :
  (length (chromosome self) <= 1 ->
   Individual_crossover message self other draw = Raise (ValueError message)) /\
  ((1 <= draw <= Z.of_nat (length (chromosome self)) - 1)%Z ->
   exists first second,
     Individual_crossover message self other draw = OK (first, second) /\
     length (chromosome first) =
       Z.to_nat draw + (length (chromosome other) - Z.to_nat draw) /\
     length (chromosome second) =
       Nat.min (Z.to_nat draw) (length (chromosome other)) +
       (length (chromosome self) - Z.to_nat draw)).
Proof.
  destruct self as [a], other as [b]. cbn [chromosome].
  unfold Individual_crossover, randint. cbn [chromosome]. split.
  - intros H.
    assert (E : (Z.of_nat (length a) - 1 <? 1)%Z = true)
      by (apply Z.ltb_lt; lia).
    now rewrite E.
  - intros Hd.
    assert (E1 : (Z.of_nat (length a) - 1 <? 1)%Z = false)
      by (apply Z.ltb_ge; lia).
    assert (E2 : (draw <? 0)%Z = false) by (apply Z.ltb_ge; lia).
    rewrite E1. cbn [bind Individual_init].
    unfold slice_to, slice_from, slice_index. rewrite !E2.
    eexists _, _. split; [reflexivity|]. cbn [chromosome].
    rewrite !length_app, !length_firstn, !length_skipn. lia.
Qed.

Lemma crossover_lengths_witness :
  Individual_crossover [] (mkIndividual [true]) (mkIndividual [false; true]) 1 =
    Raise (ValueError []) /\
  exists first second,
    Individual_crossover [] (mkIndividual [true; true; true])
      (mkIndividual [false]) 2 = OK (first, second) /\
    length (chromosome first) = 2 /\ length (chromosome second) = 2.
Proof.
  split.
  - apply (proj1 (crossover_lengths [] (mkIndividual [true])
                    (mkIndividual [false; true]) 1)).
    cbn. lia.
  - apply (proj2 (crossover_lengths [] (mkIndividual [true; true; true])
                    (mkIndividual [false]) 2)).
    cbn. lia.
Defined.
